(** * arxiv-scout: document assembly and figure extraction

    A shallow embedding of [extract_source.py]: the inclusion resolver
    [resolve_tex_content], the figure parser [parse_figures_from_tex], the
    image resolver [resolve_image] and the saving loop of [extract_figures],
    with the properties the specification states about them. *)

From Stdlib Require Import NArith Ascii String DecimalString DecimalNat Sorted Lia.
From stdpp Require Import base decidable option list gmap.

Local Open Scope N_scope.
Local Open Scope list_scope.

(** ** Python strings

    A Python [str] is a sequence of Unicode code points; [len] counts code
    points.  A character is its code point, a string the list of them. *)

Definition char : Set := N.
Abbreviation str := (list N).

(** An ASCII literal of the source as a [str]. *)
Definition lit (s : string) : str :=
  List.map N_of_ascii (list_ascii_of_string s).

Arguments lit : simpl never.

Definition char_eqb (a b : char) : bool := N.eqb a b.
Arguments char_eqb : simpl never.

Definition DOT : char := 46.
Definition SLASH : char := 47.

Definition str_eqb (a b : str) : bool := bool_decide (a = b).

(** [c in chars] for a single character. *)
Definition char_in (c : char) (chars : str) : bool :=
  existsb (char_eqb c) chars.

(** [s.startswith(p)], returning the remainder after [p] on success. *)
Fixpoint strip_prefix (p s : str) : option str :=
  match p with
  | [] => Some s
  | a :: p' =>
      match s with
      | [] => None
      | b :: s' => if char_eqb a b then strip_prefix p' s' else None
      end
  end.

Definition startswith (s p : str) : bool := bool_decide (is_Some (strip_prefix p s)).

(** [s.endswith(e)]. *)
Definition endswith (s e : str) : bool :=
  str_eqb (drop (length s - length e) s) e && Nat.leb (length e) (length s).

(** [s.lstrip(chars)]: drops the longest leading run of characters that
    belong to [chars]. *)
Fixpoint lstrip (chars s : str) : str :=
  match s with
  | [] => []
  | c :: t => if char_in c chars then lstrip chars t else s
  end.

(** [s.rsplit(sep, 1)] for a one-character separator: the text before the
    last [sep] and the text after it, or [s] alone when [sep] is absent. *)
Fixpoint rsplit1_aux (sep : char) (s : str) : option (str * str) :=
  match s with
  | [] => None
  | c :: t =>
      match rsplit1_aux sep t with
      | Some (h, r) => Some (c :: h, r)
      | None => if char_eqb c sep then Some ([], t) else None
      end
  end.

Definition rsplit1 (sep : char) (s : str) : list str :=
  match rsplit1_aux sep s with
  | Some (h, r) => [h; r]
  | None => [s]
  end.

(** [l[0]] on a list of strings that is never empty here. *)
Definition item0 (l : list str) : str := List.hd [] l.

(** [os.path.basename] (POSIX): the text after the last ['/']. *)
Definition basename (p : str) : str :=
  match rsplit1_aux SLASH p with
  | Some (_, r) => r
  | None => p
  end.

(** ** The image index

    [images : dict[str, Path]].  Iteration order of a Python dict is
    insertion order and the basename stage of [resolve_image] depends on
    it, so the index is an association list; membership and subscripting
    read the first binding of a key. *)

Section ImageResolver.

Context {Path : Type}.

Abbreviation index := (list (str * Path)).

Fixpoint dict_get (k : str) (images : index) : option Path :=
  match images with
  | [] => None
  | (k', v) :: rest => if str_eqb k k' then Some v else dict_get k rest
  end.

(** [k in images]. *)
Definition dict_mem (k : str) (images : index) : bool :=
  bool_decide (is_Some (dict_get k images)).

(** The extensions tried by the third stage, in order. *)
Definition COMMON_EXTENSIONS : list str :=
  [lit ".png"; lit ".pdf"; lit ".jpg"; lit ".jpeg"; lit ".eps"; lit ".svg"].

(** [clean = img_ref.lstrip("./")]. *)
Definition clean_ref (img_ref : str) : str := lstrip (lit "./") img_ref.

(** Stage 1: [if img_ref in images: return images[img_ref]]. *)
Definition exact_match (img_ref : str) (images : index) : option Path :=
  dict_get img_ref images.

(** Stage 2: [if clean in images: return images[clean]]. *)
Definition stripped_match (img_ref : str) (images : index) : option Path :=
  dict_get (clean_ref img_ref) images.

(** The key looked up for one extension in stage 3:
[[
    key = clean + ext if not clean.endswith(ext) else clean
    key_no_ext = key.rsplit(".", 1)[0] if "." in key else key
]] *)
Definition key_no_ext (clean ext : str) : str :=
  let key := if negb (endswith clean ext) then clean ++ ext else clean in
  if char_in DOT key then item0 (rsplit1 DOT key) else key.

(** Stage 3: the loop over the extensions; the first hit returns. *)
Fixpoint extension_loop (clean : str) (exts : list str) (images : index)
  : option Path :=
  match exts with
  | [] => None
  | ext :: rest =>
      match dict_get (key_no_ext clean ext) images with
      | Some p => Some p
      | None => extension_loop clean rest images
      end
  end.

Definition extension_match (img_ref : str) (images : index) : option Path :=
  extension_loop (clean_ref img_ref) COMMON_EXTENSIONS images.

(** Stage 4: the basename scan over [images.items()]. *)
Definition base_no_ext (clean : str) : str :=
  let base := basename clean in
  if char_in DOT base then item0 (rsplit1 DOT base) else base.

Fixpoint basename_loop (target : str) (items : index) : option Path :=
  match items with
  | [] => None
  | (key, path) :: rest =>
      if str_eqb (basename key) target then Some path
      else basename_loop target rest
  end.

Definition basename_match (img_ref : str) (images : index) : option Path :=
  basename_loop (base_no_ext (clean_ref img_ref)) images.

(** [resolve_image(img_ref, images)]; [None] is Python's [None]. *)
Definition resolve_image (img_ref : str) (images : index) : option Path :=
  match exact_match img_ref images with
  | Some p => Some p
  | None =>
  match stripped_match img_ref images with
  | Some p => Some p
  | None =>
  match extension_match img_ref images with
  | Some p => Some p
  | None => basename_match img_ref images
  end end end.

End ImageResolver.

(** The characters removed by [lstrip("./")]. *)
Definition qualifier_char (c : char) : Prop := c = DOT \/ c = SLASH.

(** ** Regular-expression scanning

    The four patterns of the source are matched by hand-written scanners
    that follow the backtracking order of Python's [re].  A scanner is
    applied to the suffix of the text at the current position and returns
    group 1 and the length of the whole match. *)

Abbreviation matcher := (str -> option (str * nat)).

(** A match object: [m.start()], [m.end()], [m.group(1)]. *)
Record Match := { m_start : nat; m_end : nat; m_group : str }.

(** [pattern.finditer(text)]: leftmost non-overlapping matches.  [skip]
    counts the characters of the current match still to be passed over. *)
Fixpoint finditer_from (m : matcher) (s : str) (pos skip : nat) : list Match :=
  match s with
  | [] => []
  | _ :: t =>
      match skip with
      | S k => finditer_from m t (S pos) k
      | O =>
          match m s with
          | Some (g, len) =>
              {| m_start := pos; m_end := (pos + len)%nat; m_group := g |}
                :: finditer_from m t (S pos) (len - 1)
          | None => finditer_from m t (S pos) 0
          end
      end
  end.

Definition finditer (m : matcher) (text : str) : list Match :=
  finditer_from m text 0 0.

(** [pattern.findall(text)] for a pattern with one group. *)
Definition findall (m : matcher) (text : str) : list str :=
  List.map m_group (finditer m text).

(** [pattern.search(text)]: the first match. *)
Definition search (m : matcher) (text : str) : option Match :=
  List.head (finditer m text).

(** [text[a:b]] for [0 <= a <= b]. *)
Definition slice (text : str) (a b : nat) : str := take (b - a) (drop a text).

(** [re.sub(pattern, r"\1", text)]. *)
Fixpoint sub_loop (text : str) (ms : list Match) (last_end : nat) : str :=
  match ms with
  | [] => drop last_end text
  | m :: rest =>
      slice text last_end (m_start m) ++ m_group m ++ sub_loop text rest (m_end m)
  end.

Definition re_sub_group1 (m : matcher) (text : str) : str :=
  sub_loop text (finditer m text) 0.

Definition LBRACE : char := 123.
Definition RBRACE : char := 125.
Definition LBRACKET : char := 91.
Definition RBRACKET : char := 93.
Definition NEWLINE : char := 10.
Definition STAR : char := 42.
Definition BACKSLASH : char := 92.
Definition SPACE : char := 32.

(** The longest prefix of characters satisfying [p], and the rest. *)
Fixpoint span (p : char -> bool) (s : str) : str * str :=
  match s with
  | [] => ([], [])
  | c :: t =>
      if p c then let '(a, b) := span p t in (c :: a, b) else ([], s)
  end.

Definition not_rbrace (c : char) : bool := negb (char_eqb c RBRACE).

(** [\{([^}]+)\}]: the group is the longest run without ['}'], which must
    be non-empty and followed by ['}']. *)
Definition brace_arg_plus (s : str) : option (str * nat) :=
  match s with
  | c :: r =>
      if char_eqb c LBRACE then
        match span not_rbrace r with
        | (g, d :: _) =>
            if char_eqb d RBRACE && negb (Nat.eqb (length g) 0)
            then Some (g, (length g + 2)%nat) else None
        | (_, []) => None
        end
      else None
  | [] => None
  end.

(** As [brace_arg_plus] with a starred class: the group may be empty. *)
Definition brace_arg_star (s : str) : option (str * nat) :=
  match s with
  | c :: r =>
      if char_eqb c LBRACE then
        match span not_rbrace r with
        | (g, d :: _) =>
            if char_eqb d RBRACE then Some (g, (length g + 2)%nat) else None
        | (_, []) => None
        end
      else None
  | [] => None
  end.

(** [\{(.+?)\}] under DOTALL: one arbitrary character, then the shortest
    continuation up to a ['}']. *)
Definition brace_arg_lazy (s : str) : option (str * nat) :=
  match s with
  | c :: c1 :: r =>
      if char_eqb c LBRACE then
        match span not_rbrace r with
        | (g, d :: _) =>
            if char_eqb d RBRACE then Some (c1 :: g, (length g + 3)%nat) else None
        | (_, []) => None
        end
      else None
  | _ => None
  end.

(** [.*?\]] followed by the continuation [k], after the opening ['['] has
    been read: the lazy star stops at the first [']'] after which [k]
    matches; without DOTALL the dot does not cross a newline. *)
Fixpoint lazy_bracket (dotall : bool) (k : matcher) (s : str) : option (str * nat) :=
  match s with
  | [] => None
  | c :: t =>
      let here :=
        if char_eqb c RBRACKET then
          match k t with Some (g, n) => Some (g, S n) | None => None end
        else None in
      match here with
      | Some r => Some r
      | None =>
          if dotall || negb (char_eqb c NEWLINE) then
            match lazy_bracket dotall k t with
            | Some (g, n) => Some (g, S n)
            | None => None
            end
          else None
      end
  end.

(** [(?:\[.*?\])?] followed by [k]: the option group is tried first. *)
Definition opt_bracket (dotall : bool) (k : matcher) (s : str) : option (str * nat) :=
  let with_group :=
    match s with
    | c :: t =>
        if char_eqb c LBRACKET then
          match lazy_bracket dotall k t with
          | Some (g, n) => Some (g, S n)
          | None => None
          end
        else None
    | [] => None
    end in
  match with_group with
  | Some r => Some r
  | None => k s
  end.

(** A literal keyword followed by the continuation [k]. *)
Definition keyword (kw : str) (k : matcher) (s : str) : option (str * nat) :=
  match strip_prefix kw s with
  | Some r =>
      match k r with
      | Some (g, n) => Some (g, (length kw + n)%nat)
      | None => None
      end
  | None => None
  end.

(** [\\(?:input|include)\{([^}]+)\}] *)
Definition input_pattern : matcher := fun s =>
  match keyword (lit "\input") brace_arg_plus s with
  | Some r => Some r
  | None => keyword (lit "\include") brace_arg_plus s
  end.

(** [\\includegraphics(?:\[.*?\])?\{([^}]+)\}] *)
Definition img_pattern : matcher :=
  keyword (lit "\includegraphics") (opt_bracket false brace_arg_plus).

(** [\\caption(?:\[.*?\])?\{(.+?)\}] with DOTALL *)
Definition cap_pattern : matcher :=
  keyword (lit "\caption") (opt_bracket true brace_arg_lazy).

Definition is_ascii_letter (c : char) : bool :=
  (N.leb 65 c && N.leb c 90) || (N.leb 97 c && N.leb c 122).

(** A backslash, one or more ASCII letters, then a braced group without
    ['}'] that may be empty: the pattern of the first [re.sub]. *)
Definition command_pattern : matcher := fun s =>
  match s with
  | c :: r =>
      if char_eqb c BACKSLASH then
        match span is_ascii_letter r with
        | ([], _) => None
        | (name, r') =>
            match brace_arg_star r' with
            | Some (g, n) => Some (g, (1 + length name + n)%nat)
            | None => None
            end
        end
      else None
  | [] => None
  end.

(** [\*?\}]: an optional star, then the closing brace; the length read. *)
Definition star_brace (s : str) : option nat :=
  let with_star :=
    match s with
    | c :: d :: _ =>
        if char_eqb c STAR && char_eqb d RBRACE then Some 2%nat else None
    | _ => None
    end in
  match with_star with
  | Some n => Some n
  | None =>
      match s with
      | c :: _ => if char_eqb c RBRACE then Some 1%nat else None
      | [] => None
      end
  end.

(** [\\end\{figure\*?\}] at the head of [s]: the length of the marker. *)
Definition end_marker (s : str) : option nat :=
  match strip_prefix (lit "\end{figure") s with
  | Some r =>
      match star_brace r with
      | Some n => Some (length (lit "\end{figure") + n)%nat
      | None => None
      end
  | None => None
  end.

(** [(.*?)\\end\{figure\*?\}] under DOTALL: the body is the text up to the
    first end marker. *)
Fixpoint body_until_end (s : str) : option (str * nat) :=
  match end_marker s with
  | Some n => Some ([], n)
  | None =>
      match s with
      | [] => None
      | c :: t =>
          match body_until_end t with
          | Some (b, n) => Some (c :: b, S n)
          | None => None
          end
      end
  end.

(** [\\begin\{figure\*?\}(.*?)\\end\{figure\*?\}] with DOTALL *)
Definition fig_pattern : matcher := fun s =>
  match strip_prefix (lit "\begin{figure") s with
  | Some r =>
      match star_brace r with
      | Some n =>
          match body_until_end (drop n r) with
          | Some (body, len) =>
              Some (body, (length (lit "\begin{figure") + n + len)%nat)
          | None => None
          end
      | None => None
      end
  | None => None
  end.

(** ** Caption cleaning *)

(** [str.isspace] for one character: the code points Python treats as
    whitespace in [str.split()] and [str.strip()]. *)
Definition is_space (c : char) : bool :=
  (N.leb 9 c && N.leb c 13) || (N.leb 28 c && N.leb c 32)
  || N.eqb c 133 || N.eqb c 160 || N.eqb c 5760
  || (N.leb 8192 c && N.leb c 8202) || N.eqb c 8232 || N.eqb c 8233
  || N.eqb c 8239 || N.eqb c 8287 || N.eqb c 12288.

Fixpoint lstrip_space (s : str) : str :=
  match s with
  | [] => []
  | c :: t => if is_space c then lstrip_space t else s
  end.

(** [s.strip()] *)
Definition strip (s : str) : str :=
  rev (lstrip_space (rev (lstrip_space s))).

(** [s.split()]: the maximal runs of non-whitespace characters; [cur] is
    the word being read, reversed. *)
Fixpoint split_from (s cur : str) : list str :=
  match s with
  | [] => match cur with [] => [] | _ => [rev cur] end
  | c :: t =>
      if is_space c then
        match cur with
        | [] => split_from t []
        | _ => rev cur :: split_from t []
        end
      else split_from t (c :: cur)
  end.

Definition split (s : str) : list str := split_from s [].

(** [sep.join(words)] *)
Fixpoint join (sep : str) (words : list str) : str :=
  match words with
  | [] => []
  | [w] => w
  | w :: rest => w ++ sep ++ join sep rest
  end.

Definition is_brace (c : char) : bool := char_eqb c LBRACE || char_eqb c RBRACE.

(** The caption before truncation:
[[
    caption = cap_match.group(1).strip() if cap_match else ""
    caption = re.sub(COMMAND, r"\1", caption)
    caption = re.sub(r"[{}]", "", caption)
    caption = " ".join(caption.split())
]] *)
Definition cleaned_caption (body : str) : str :=
  let caption :=
    match search cap_pattern body with
    | Some cap_match => strip (m_group cap_match)
    | None => []
    end in
  let caption := re_sub_group1 command_pattern caption in
  let caption := List.filter (fun c => negb (is_brace c)) caption in
  join [SPACE] (split caption).

(** [if len(caption) > 120: caption = caption[:117] + "..."] *)
Definition truncate_caption (caption : str) : str :=
  if Nat.ltb 120 (length caption) then take 117 caption ++ lit "..." else caption.

(** ** The figure parser *)

Record FigureRecord := {
  number : nat;
  image_paths : list str;
  caption : str
}.

(** The body of the [for match in fig_pattern.finditer(...)] loop. *)
Definition figure_of_match (fig_num : nat) (m : Match) : FigureRecord :=
  let body := m_group m in
  {| number := fig_num;
     image_paths := findall img_pattern body;
     caption := truncate_caption (cleaned_caption body) |}.

Fixpoint figure_loop (ms : list Match) (fig_num : nat) : list FigureRecord :=
  match ms with
  | [] => []
  | m :: rest =>
      let fig_num := (fig_num + 1)%nat in
      figure_of_match fig_num m :: figure_loop rest fig_num
  end.

Definition parse_figures_from_tex (tex_content : str) : list FigureRecord :=
  figure_loop (finditer fig_pattern tex_content) 0.

(** ** The source tree

    The pathlib and file-system operations the program calls, as an
    interface.  [resolved p] is [str(p.resolve())], the canonical identity
    of a file; [read_text p] is [None] when [p.read_text(...)] raises.  A
    source tree is finite: [tree_files] holds the identities of the files
    that can be read. *)

Class SourceTree (Path : Type) := {
  joinpath : Path -> str -> Path;
  parent : Path -> Path;
  path_str : Path -> str;
  suffix_lower : Path -> str;
  resolved : Path -> str;
  path_exists : Path -> bool;
  is_file : Path -> bool;
  read_text : Path -> option str;
  tree_files : gset str;
  read_text_in_tree : forall p content,
    read_text p = Some content -> resolved p ∈ tree_files
}.

(** ** The document assembler *)

Section Assembler.

Context {Path : Type} `{SourceTree Path}.

(** [_find_tex_file(ref, parent_dir, src_dir)]: the first candidate that
    exists as a regular file. *)
Definition _find_tex_file (ref : str) (parent_dir src_dir : Path) : option Path :=
  let candidates :=
    [ joinpath parent_dir ref;
      joinpath parent_dir (ref ++ lit ".tex");
      joinpath src_dir ref;
      joinpath src_dir (ref ++ lit ".tex") ] in
  List.find (fun c => path_exists c && is_file c) candidates.

(** The state threaded through one top-level call: the [visited] set the
    recursive calls share, and the files read so far, in order. *)
Record AsmState := {
  visited : gset str;
  reads : list str
}.

(** A computation over the assembler state; [None] is fuel exhaustion. *)
Definition Asm (A : Type) : Type := AsmState -> option (A * AsmState).

Definition asm_ret {A} (a : A) : Asm A := fun st => Some (a, st).

Definition asm_bind {A B} (c : Asm A) (k : A -> Asm B) : Asm B := fun st =>
  match c st with
  | Some (a, st') => k a st'
  | None => None
  end.

Notation "x <- c ;; k" := (asm_bind c (fun x => k))
  (at level 100, c at next level, right associativity).

Definition out_of_fuel {A} : Asm A := fun _ => None.

(** [resolved in visited] *)
Definition is_visited (r : str) : Asm bool := fun st =>
  Some (bool_decide (r ∈ visited st), st).

(** [visited.add(resolved)] *)
Definition visit (r : str) : Asm unit := fun st =>
  Some (tt, {| visited := {[ r ]} ∪ visited st; reads := reads st |}).

(** [tex_path.read_text(...)], recorded under the file's identity. *)
Definition read_file (p : Path) : Asm (option str) := fun st =>
  Some (read_text p, {| visited := visited st; reads := reads st ++ [resolved p] |}).

(** The [for match in input_pattern.finditer(content)] loop; [self] is
    the recursive call. *)
Fixpoint include_loop (self : Path -> Asm str) (tex_path src_dir : Path)
    (content : str) (ms : list Match) (last_end : nat) (result : list str)
  : Asm str :=
  match ms with
  | [] => asm_ret (concat (result ++ [drop last_end content]))
  | m :: rest =>
      let result := result ++ [slice content last_end (m_start m)] in
      let ref := m_group m in
      match _find_tex_file ref (parent tex_path) src_dir with
      | Some child =>
          if path_exists child then
            r <- self child ;;
            include_loop self tex_path src_dir content rest (m_end m) (result ++ [r])
          else include_loop self tex_path src_dir content rest (m_end m) result
      | None => include_loop self tex_path src_dir content rest (m_end m) result
      end
  end.

(** [resolve_tex_content(tex_path, src_dir, visited)]; the recursion depth
    is bounded by [fuel].  The interpreter's own recursion limit is not
    modelled. *)
Fixpoint resolve_tex_content_in (fuel : nat) (tex_path src_dir : Path) : Asm str :=
  match fuel with
  | O => out_of_fuel
  | S fuel' =>
      let r := resolved tex_path in
      seen <- is_visited r ;;
      if (seen : bool) then asm_ret []
      else
        _ <- visit r ;;
        text <- read_file tex_path ;;
        match text with
        | None => asm_ret []
        | Some content =>
            include_loop (fun child => resolve_tex_content_in fuel' child src_dir)
              tex_path src_dir content (finditer input_pattern content) 0 []
        end
  end.

(** A top-level call: [visited] is [None] and becomes a fresh set. *)
Definition initial_state : AsmState := {| visited := ∅; reads := [] |}.

Definition resolve_tex_content (fuel : nat) (tex_path src_dir : Path)
  : option (str * AsmState) :=
  resolve_tex_content_in fuel tex_path src_dir initial_state.

End Assembler.

(** ** The extraction loop *)

Definition MAX_FIGURES : nat := 10.

(** What [subprocess.run(..., check=True, timeout=30)] does. *)
Inductive RunResult :=
| Completed
| CalledProcessError
| FileNotFoundError
| TimeoutExpired.

(** The external converter: the outcome of running [pdftoppm] on a file
    with an output path and a resolution, and whether the output exists
    afterwards. *)
Class Rasterizer (Path : Type) := {
  run_pdftoppm : Path -> Path -> nat -> RunResult;
  png_exists : Path -> bool
}.

Record SavedFigure := {
  sf_number : nat;
  sf_caption : str;
  sf_filename : str;
  sf_saved_path : str
}.

(** [str(n)] for a non-negative integer. *)
Definition str_of_nat (n : nat) : str :=
  lit (NilEmpty.string_of_uint (Nat.to_uint n)).

Section Pipeline.

Context {Path : Type} `{SourceTree Path} `{Rasterizer Path}.

(** [convert_pdf_to_png(pdf_path, png_path, dpi=150)] *)
Definition convert_pdf_to_png (pdf_path png_path : Path) (dpi : nat) : bool :=
  match run_pdftoppm pdf_path png_path dpi with
  | Completed => png_exists png_path
  | CalledProcessError | FileNotFoundError | TimeoutExpired => false
  end.

(** A file written into the output directory. *)
Inductive Written :=
| Converted (src dest : Path)
| Copied (src dest : Path).

(** The [for img_ref in fig["image_paths"]] loop: the record saved and the
    file written by the first reference that is saved, if any.
    [shutil.copy2] is taken to succeed; the [print] calls are left out. *)
Fixpoint save_first (out_dir : Path) (images : list (str * Path))
    (fig : FigureRecord) (refs : list str) : option (SavedFigure * Written) :=
  match refs with
  | [] => None
  | img_ref :: rest =>
      match resolve_image img_ref images with
      | None => save_first out_dir images fig rest
      | Some resolved_path =>
          let ext := suffix_lower resolved_path in
          if str_eqb ext (lit ".eps") then save_first out_dir images fig rest
          else
            let '(dest_name, dest_path, written) :=
              if str_eqb ext (lit ".pdf") then
                let dest_name := lit "figure" ++ str_of_nat (number fig) ++ lit ".png" in
                let dest_path := joinpath out_dir dest_name in
                if convert_pdf_to_png resolved_path dest_path 150 then
                  (dest_name, dest_path, Converted resolved_path dest_path)
                else
                  let dest_name := lit "figure" ++ str_of_nat (number fig) ++ lit ".pdf" in
                  let dest_path := joinpath out_dir dest_name in
                  (dest_name, dest_path, Copied resolved_path dest_path)
              else
                let dest_name := lit "figure" ++ str_of_nat (number fig) ++ ext in
                let dest_path := joinpath out_dir dest_name in
                (dest_name, dest_path, Copied resolved_path dest_path) in
            Some ({| sf_number := number fig;
                     sf_caption := caption fig;
                     sf_filename := dest_name;
                     sf_saved_path := path_str dest_path |}, written)
      end
  end.

(** The [for fig in figures] loop with its [break] at the cap. *)
Fixpoint save_loop (out_dir : Path) (images : list (str * Path))
    (figures : list FigureRecord) (saved_figures : list SavedFigure)
    (written : list Written) : list SavedFigure * list Written :=
  match figures with
  | [] => (saved_figures, written)
  | fig :: rest =>
      if Nat.leb MAX_FIGURES (length saved_figures) then (saved_figures, written)
      else
        match save_first out_dir images fig (image_paths fig) with
        | Some (sf, w) =>
            save_loop out_dir images rest (saved_figures ++ [sf]) (written ++ [w])
        | None => save_loop out_dir images rest saved_figures written
        end
  end.

(** The part of [extract_figures] after the text is assembled: parse the
    figures, then save. *)
Definition extract_figures (out_dir : Path) (images : list (str * Path))
    (tex_content : str) : list SavedFigure * list Written :=
  let figures := parse_figures_from_tex tex_content in
  save_loop out_dir images figures [] [].

End Pipeline.

(** ** An in-memory source tree

    A flat model of a directory for the examples: a path is its string, a
    file is a binding of the association list [files], and every path is
    its own canonical identity. *)

Definition ascii_lower (c : char) : char :=
  if N.leb 65 c && N.leb c 90 then c + 32 else c.

(** [PurePath.suffix] of a path string, lowered for ASCII letters. *)
Definition mem_suffix_lower (p : str) : str :=
  let name := basename p in
  match rsplit1_aux DOT name with
  | Some (h :: _, e :: r) => List.map ascii_lower (DOT :: e :: r)
  | _ => []
  end.

Definition mem_parent (p : str) : str :=
  match rsplit1_aux SLASH p with
  | Some (d, _) => d
  | None => []
  end.

Definition mem_joinpath (d s : str) : str := d ++ [SLASH] ++ s.

Definition memory_tree (files : list (str * str)) : SourceTree str.
Proof.
  refine {|
    joinpath := mem_joinpath;
    parent := mem_parent;
    path_str := fun p => p;
    suffix_lower := mem_suffix_lower;
    resolved := fun p => p;
    path_exists := fun p => dict_mem p files;
    is_file := fun p => dict_mem p files;
    read_text := fun p => dict_get p files;
    tree_files := list_to_set (List.map fst files);
    read_text_in_tree := _
  |}.
  intros p content. induction files as [|[k v] rest IH]; cbn; [discriminate|].
  unfold str_eqb. case_bool_decide as Hk.
  - intros _. subst k. apply elem_of_union_l, elem_of_singleton. reflexivity.
  - intros Hget. apply elem_of_union_r, IH, Hget.
Defined.

(** A converter that always ends with the given outcome. *)
Definition constant_rasterizer (r : RunResult) (produced : bool) : Rasterizer str := {|
  run_pdftoppm := fun _ _ _ => r;
  png_exists := fun _ => produced
|}.

(** ** Statements and sample inputs used by the theorems *)

(** An assembled text with three figure environments: the first has two
    images and a caption, the second neither, the third only a caption. *)
Definition three_figures : str :=
  lit "\begin{figure}\includegraphics{a}\includegraphics[w]{b}\caption{one}\end{figure}"
  ++ lit "text \begin{figure*}\end{figure*}"
  ++ lit "\begin{figure}\caption{three}\end{figure}".

(** What the parser does to the cleaned caption [c] of a record [r]. *)
Definition caption_rule (r : FigureRecord) (c : str) : Prop :=
  ((120 < length c)%nat ->
     caption r = take 117 c ++ lit "..." /\ length (take 117 c) = 117%nat
     /\ length (caption r) = 120%nat)
  /\ ((length c <= 120)%nat -> caption r = c)
  /\ (caption r <> c <-> (120 < length c)%nat).

(** A figure environment whose caption is [n] letters [a]. *)
Definition figure_with_caption (n : nat) : str :=
  lit "\begin{figure}\caption{" ++ replicate n 97 ++ lit "}\end{figure}".

(** Fifteen figure environments, each with one image reference. *)
Definition fifteen_figures : str :=
  concat (replicate 15 (lit "\begin{figure}\includegraphics{img}\caption{c}\end{figure} ")).


Section PipelineStatements.

Context {Path : Type} `{SourceTree Path} `{Rasterizer Path}.

(** The record a figure contributes when one of its references is saved. *)
Definition saved_of (out_dir : Path) (images : list (str * Path))
    (fig : FigureRecord) : option SavedFigure :=
  fst <$> save_first out_dir images fig (image_paths fig).


End PipelineStatements.

Section AssemblerStatements.

Context {Path : Type} `{SourceTree Path}.

(** The files of the tree not visited yet: the recursion depth left. *)
Definition budget (st : AsmState) : nat := size (tree_files ∖ visited st).

(** No file was read twice, and every file read is marked visited. *)
Definition reads_ok (st : AsmState) : Prop :=
  NoDup (reads st) /\ forall r, r ∈ reads st -> r ∈ visited st.

(** With a budget below [n] the computation returns; it only adds to the
    visited set and keeps [reads_ok]. *)
Definition returns_within {A} (n : nat) (c : Asm A) : Prop :=
  forall st, (budget st < n)%nat ->
    exists a st', c st = Some (a, st')
      /\ visited st ⊆ visited st'
      /\ (reads_ok st -> reads_ok st').

End AssemblerStatements.

(** A file that includes itself, and two files that include each other. *)
Definition self_including_tree : SourceTree str :=
  memory_tree [(lit "/src/main.tex", lit "A\input{main}B")].

Definition two_file_cycle_tree : SourceTree str :=
  memory_tree [(lit "/src/a.tex", lit "A1\input{b}A2");
               (lit "/src/b.tex", lit "B1\include{a}B2\input{b.tex}B3")].

(** The text and the files read, when the call returns. *)
Definition text_and_reads (r : option (str * AsmState)) : option (str * list str) :=
  (fun '(text, st) => (text, reads st)) <$> r.

(** ** Downloading with retries

    [download_source] and [fetch_page] call the network in a loop.  The
    network is an oracle that tells what the request of a given attempt
    does; what the program does to the outside is a trace of events. *)

Inductive Event :=
| Request
| Sleep (seconds : nat).

(** How a call ends. *)
Inductive Outcome (Data Err : Type) :=
| Returned (data : Data)
| Raised (e : Err)
| Unreachable.
Arguments Returned {Data Err} data.
Arguments Raised {Data Err} e.
Arguments Unreachable {Data Err}.

(** [urlopen(req, timeout=60)] followed by [resp.read()] in
    [download_source]: every exception is caught. *)
Inductive Response (Data Err : Type) :=
| Received (data : Data)
| Failed (e : Err).
Arguments Received {Data Err} data.
Arguments Failed {Data Err} e.

(** The [for attempt in range(3)] loop of [download_source]. *)
Fixpoint download_attempts {Data Err} (net : nat -> Response Data Err)
    (attempts : list nat) : Outcome Data Err * list Event :=
  match attempts with
  | [] => (Unreachable, [])
  | attempt :: rest =>
      match net attempt with
      | Received data => (Returned data, [Request])
      | Failed e =>
          if Nat.eqb attempt 2 then (Raised e, [Request])
          else
            let wait := (5 * (attempt + 1))%nat in
            let '(r, events) := download_attempts net rest in
            (r, Request :: Sleep wait :: events)
      end
  end.

Definition download_source {Data Err} (net : nat -> Response Data Err)
  : Outcome Data Err * list Event :=
  download_attempts net (seq 0 3).

Definition MAX_RETRIES : nat := 5.
Definition RETRY_BASE_WAIT : nat := 10.
Definition MAX_RESULTS_PER_REQUEST : nat := 200.
Definition REQUEST_INTERVAL : nat := 3.

(** The request of [fetch_page]: only [URLError] and [TimeoutError] are
    caught, any other exception leaves the loop at once. *)
Inductive PageResponse (Data Err : Type) :=
| PageReceived (data : Data)
| PageUnavailable (e : Err)
| PageCrashed (e : Err).
Arguments PageReceived {Data Err} data.
Arguments PageUnavailable {Data Err} e.
Arguments PageCrashed {Data Err} e.

(** The [for attempt in range(1, MAX_RETRIES + 1)] loop of [fetch_page]. *)
Fixpoint fetch_attempts {Data Err} (net : nat -> PageResponse Data Err)
    (attempts : list nat) : Outcome Data Err * list Event :=
  match attempts with
  | [] => (Unreachable, [])
  | attempt :: rest =>
      match net attempt with
      | PageReceived data => (Returned data, [Request])
      | PageCrashed e => (Raised e, [Request])
      | PageUnavailable e =>
          if Nat.eqb attempt MAX_RETRIES then (Raised e, [Request])
          else
            let wait := (RETRY_BASE_WAIT * 2 ^ (attempt - 1))%nat in
            let '(r, events) := fetch_attempts net rest in
            (r, Request :: Sleep wait :: events)
      end
  end.

Definition fetch_page {Data Err} (net : nat -> PageResponse Data Err)
  : Outcome Data Err * list Event :=
  fetch_attempts net (seq 1 MAX_RETRIES).

(** The number of requests and the seconds slept in a trace. *)
Definition requests (events : list Event) : nat :=
  length (List.filter (fun e => match e with Request => true | Sleep _ => false end) events).

Fixpoint slept (events : list Event) : nat :=
  match events with
  | [] => 0
  | Request :: rest => slept rest
  | Sleep n :: rest => (n + slept rest)%nat
  end.

(** ** Paging through the results

    [fetch_all] asks for the page at [start] until a page is empty or
    reaches the total it reports.  [page start] is what [fetch_page]
    followed by [parse_entries] gives for that offset: the entries and the
    total, or [None] when one of them raises.  The [while True] loop is
    bounded by [fuel]. *)

Inductive Paged (E : Type) :=
| AllEntries (all_entries : list E) (starts : list nat)
| PageError (starts : list nat)
| OutOfFuel.
Arguments AllEntries {E} all_entries starts.
Arguments PageError {E} starts.
Arguments OutOfFuel {E}.

Fixpoint fetch_all_loop {E} (page : nat -> option (list E * Z)) (fuel : nat)
    (start : nat) (all_entries : list E) (starts : list nat) : Paged E :=
  match fuel with
  | O => OutOfFuel
  | S fuel' =>
      match page start with
      | None => PageError (starts ++ [start])
      | Some (entries, total) =>
          let all_entries := all_entries ++ entries in
          if Z.leb total (Z.of_nat (start + MAX_RESULTS_PER_REQUEST))
             || Nat.eqb (length entries) 0
          then AllEntries all_entries (starts ++ [start])
          else fetch_all_loop page fuel' (start + MAX_RESULTS_PER_REQUEST)
                 all_entries (starts ++ [start])
      end
  end.

Definition fetch_all {E} (page : nat -> option (list E * Z)) (fuel : nat) : Paged E :=
  fetch_all_loop page fuel 0 [] [].

(** ** Appending to the CSV file *)

Inductive CsvLine (P : Type) :=
| Header
| Row (paper : P).
Arguments Header {P}.
Arguments Row {P} paper.

(** [p["arxiv_id"] not in existing_ids] *)
Definition is_new {P} (arxiv_id : P -> str) (existing_ids : gset str) (p : P) : bool :=
  negb (bool_decide (arxiv_id p ∈ existing_ids)).

(** [save_papers(path, papers, existing_ids)]: the lines appended to the
    file and the count returned.  [file_exists] is
    [os.path.exists(path) and os.path.getsize(path) > 0]. *)
Definition save_papers {P} (arxiv_id : P -> str) (file_exists : bool)
    (papers : list P) (existing_ids : gset str) : list (CsvLine P) * nat :=
  let new := List.filter (is_new arxiv_id existing_ids) papers in
  match new with
  | [] => ([], 0%nat)
  | _ =>
      ((if negb file_exists then [Header] else []) ++ List.map Row new, length new)
  end.

(** Every attempt of [fetch_page] before [k] found the service
    unavailable. *)
Definition unavailable_before {Data Err} (net : nat -> PageResponse Data Err)
    (k : nat) : Prop :=
  forall j, (1 <= j < k)%nat -> exists e, net j = PageUnavailable e.

(** The entries of the page at [start], none when the request fails. *)
Definition entries_at {E} (page : nat -> option (list E * Z)) (start : nat) : list E :=
  match page start with
  | Some (entries, _) => entries
  | None => []
  end.

(** The offsets [start], [start + 200], ... of [n] consecutive pages. *)
Definition page_starts (start n : nat) : list nat :=
  List.map (fun i => (start + MAX_RESULTS_PER_REQUEST * i)%nat) (seq 0 n).

(** The loop goes on after the page at [start]: the page has entries and
    reports a total beyond its end. *)
Definition goes_on {E} (page : nat -> option (list E * Z)) (start : nat) : Prop :=
  exists entries total,
    page start = Some (entries, total)
    /\ entries <> []
    /\ (Z.of_nat (start + MAX_RESULTS_PER_REQUEST) < total)%Z.

(** The loop breaks at the page at [start]: the page is empty or reaches
    the total it reports. *)
Definition breaks_at {E} (page : nat -> option (list E * Z)) (start : nat) : Prop :=
  exists entries total,
    page start = Some (entries, total)
    /\ (entries = [] \/ (total <= Z.of_nat (start + MAX_RESULTS_PER_REQUEST))%Z).

(** What a finished paging loop has done, after the requests [starts0]
    gave [all0]: it asked for [m + 1] consecutive pages, no more than
    [bound]; the loop goes on after each of the first [m] and ends at the
    last, which breaks the loop or fails; the entries of all pages are
    returned in order unless the last request fails. *)
Definition paged_from {E} (page : nat -> option (list E * Z)) (start bound : nat)
    (all0 : list E) (starts0 : list nat) (r : Paged E) : Prop :=
  match r with
  | OutOfFuel => False
  | PageError starts =>
      exists m, (m < bound)%nat /\ starts = starts0 ++ page_starts start (S m)
                /\ Forall (goes_on page) (page_starts start m)
                /\ page (start + MAX_RESULTS_PER_REQUEST * m)%nat = None
  | AllEntries all_entries starts =>
      exists m, (m < bound)%nat /\ starts = starts0 ++ page_starts start (S m)
                /\ Forall (goes_on page) (page_starts start m)
                /\ breaks_at page (start + MAX_RESULTS_PER_REQUEST * m)%nat
                /\ all_entries
                   = all0 ++ concat (List.map (entries_at page) (page_starts start (S m)))
  end.

(** The papers of the rows among the lines written. *)
Definition rows_of {P} (lines : list (CsvLine P)) : list P :=
  omap (fun l => match l with Row p => Some p | Header => None end) lines.

(** ** Locating the sources

    [rglob dir pattern] is [list(dir.rglob(pattern))] in the order the
    file system gives; [relative_stem f dir] is
    [str(f.relative_to(dir).with_suffix(""))]. *)

Class Listing (Path : Type) := {
  rglob : Path -> str -> list Path;
  relative_stem : Path -> Path -> str
}.

Definition IMAGE_EXTENSIONS : list str :=
  [lit ".png"; lit ".jpg"; lit ".jpeg"; lit ".pdf"; lit ".eps"; lit ".svg";
   lit ".gif"; lit ".bmp"; lit ".tiff"].

(** [s.replace(old, new)] for a one-character [old]. *)
Definition replace1 (old : char) (new : str) (s : str) : str :=
  List.concat (List.map (fun c => if char_eqb c old then new else [c]) s).

(** A pattern that is a literal text, without a group. *)
Definition literal_pattern (kw : str) : matcher := fun s =>
  match strip_prefix kw s with
  | Some _ => Some ([], length kw)
  | None => None
  end.

(** [images[key] = f]: the value of an existing key is replaced where the
    key stands, a new key goes to the end. *)
Fixpoint dict_set {V : Type} (key : str) (v : V) (d : list (str * V)) : list (str * V) :=
  match d with
  | [] => [(key, v)]
  | (k, v') :: rest =>
      if str_eqb key k then (k, v) :: rest else (k, v') :: dict_set key v rest
  end.

(** [arxiv_id.replace(".", "").replace("/", "")] *)
Definition clean_id (arxiv_id : str) : str :=
  replace1 SLASH [] (replace1 DOT [] arxiv_id).

Section Locator.

Context {Path : Type} `{SourceTree Path} `{Listing Path}.

(** [re.search(r"\\documentclass", content)] finds a match. *)
Definition has_documentclass (content : str) : bool :=
  bool_decide (is_Some (search (literal_pattern (lit "\documentclass")) content)).

(** The loop of [find_main_tex]; a file that cannot be read is passed. *)
Fixpoint main_tex_loop (files : list Path) : option Path :=
  match files with
  | [] => None
  | f :: rest =>
      match read_text f with
      | Some content => if has_documentclass content then Some f else main_tex_loop rest
      | None => main_tex_loop rest
      end
  end.

Definition find_main_tex (src_dir : Path) : option Path :=
  main_tex_loop (rglob src_dir (lit "*.tex")).

(** [f.suffix.lower() in IMAGE_EXTENSIONS and f.is_file()] *)
Definition is_image_file (f : Path) : bool :=
  existsb (str_eqb (suffix_lower f)) IMAGE_EXTENSIONS && is_file f.

(** [str(rel.with_suffix("")).replace("\\", "/")] *)
Definition stem_key (src_dir f : Path) : str :=
  replace1 BACKSLASH [SLASH] (relative_stem f src_dir).

(** The loop of [find_image_files]. *)
Fixpoint image_loop (src_dir : Path) (files : list Path) (images : list (str * Path))
  : list (str * Path) :=
  match files with
  | [] => images
  | f :: rest =>
      if is_image_file f
      then image_loop src_dir rest (dict_set (stem_key src_dir f) f images)
      else image_loop src_dir rest images
  end.

Definition find_image_files (src_dir : Path) : list (str * Path) :=
  image_loop src_dir (rglob src_dir (lit "*")) [].

(** The four candidates of [_find_tex_file], in order. *)
Definition tex_candidates (ref : str) (parent_dir src_dir : Path) : list Path :=
  [ joinpath parent_dir ref;
    joinpath parent_dir (ref ++ lit ".tex");
    joinpath src_dir ref;
    joinpath src_dir (ref ++ lit ".tex") ].

(** [f] can be read and its text has a document class. *)
Definition declares_class (f : Path) : Prop :=
  exists content, read_text f = Some content /\ has_documentclass content = true.

(** [c] exists as a regular file. *)
Definition regular_file (c : Path) : bool := path_exists c && is_file c.

(** What holds of every binding of the index: the file is listed, is an
    image file, and stands under its stem key. *)
Definition indexed (src_dir : Path) (files : list Path) (binding : str * Path) : Prop :=
  binding.2 ∈ files /\ is_image_file binding.2 = true
  /\ binding.1 = stem_key src_dir binding.2.

(** [f] is an image file of the listing and no later image file of the
    listing has its key. *)
Definition last_with_key (src_dir : Path) (files : list Path) (f : Path) : Prop :=
  exists before after,
    files = before ++ f :: after
    /\ is_image_file f = true
    /\ forall g, g ∈ after -> is_image_file g = true ->
         stem_key src_dir g <> stem_key src_dir f.

End Locator.

(** A listing for the in-memory tree: the paths of [files], in their
    order, that end with the pattern after its star; and the path without
    its last extension, taken relative to the directory when it lies below
    it. *)
Definition mem_relative_stem (f dir : str) : str :=
  let rel := match strip_prefix (dir ++ [SLASH]) f with Some r => r | None => f end in
  match rsplit1_aux DOT (basename rel) with
  | Some (h :: _, _ :: _) => take (length rel - length (mem_suffix_lower rel)) rel
  | _ => rel
  end.

Definition memory_listing (files : list (str * str)) : Listing str := {|
  rglob := fun _ pattern =>
    List.filter (fun f => endswith f (drop 1 pattern)) (List.map fst files);
  relative_stem := mem_relative_stem
|}.

(** ** Statements about captions and references *)

(** Every whitespace character of the text is a plain space that directly
    follows a character that is not whitespace; [after_word] tells whether
    the character before the text is such a character. *)
Fixpoint well_spaced (after_word : bool) (s : str) : bool :=
  match s with
  | [] => true
  | c :: t =>
      if is_space c then char_eqb c SPACE && after_word && well_spaced false t
      else well_spaced true t
  end.

Definition not_space (c : char) : Prop := is_space c = false.

(** A reference taken from between braces: not empty and without ['}']. *)
Definition braced_ref (g : str) : Prop := g <> [] /\ char_in RBRACE g = false.

(** A caption as the parser leaves it. *)
Definition tidy_caption (c : str) : Prop :=
  (length c <= 120)%nat
  /\ well_spaced false c = true
  /\ forall x, x ∈ c -> is_brace x = false.

(** The group of every match of the scanner [k] has the property [P]. *)
Definition captures (P : str -> Prop) (k : matcher) : Prop :=
  forall s g n, k s = Some (g, n) -> P g.

(** ** Statements about the saved files *)

(** The extensions a saved file can have: those of [IMAGE_EXTENSIONS]
    but [.eps]. *)
Definition SAVED_EXTENSIONS : list str :=
  [lit ".png"; lit ".jpg"; lit ".jpeg"; lit ".pdf"; lit ".svg";
   lit ".gif"; lit ".bmp"; lit ".tiff"].

(** A suffix as [PurePath.suffix] gives it: empty or starting with a dot. *)
Definition dotted (e : str) : bool :=
  match e with
  | [] => true
  | c :: _ => char_eqb c DOT
  end.

Definition is_digit (c : char) : bool := N.leb 48 c && N.leb c 57.

(** [f"figure{n}{ext}"] *)
Definition figure_name (n : nat) (ext : str) : str :=
  lit "figure" ++ str_of_nat n ++ ext.

Section SavedStatements.

Context {Path : Type} `{SourceTree Path} `{Rasterizer Path}.

Definition written_src (w : @Written Path) : Path :=
  match w with Converted src _ | Copied src _ => src end.

Definition written_dest (w : @Written Path) : Path :=
  match w with Converted _ dest | Copied _ dest => dest end.

(** A reference that the saving loop passes over: it does not resolve, or
    resolves to an EPS file. *)
Definition passed_over (images : list (str * Path)) (img_ref : str) : Prop :=
  match resolve_image img_ref images with
  | None => True
  | Some p => suffix_lower p = lit ".eps"
  end.

(** [pdftoppm] ran to completion and its output exists. *)
Definition conversion_succeeds (pdf png : Path) : Prop :=
  run_pdftoppm pdf png 150 = Completed /\ png_exists png = true.

(** The three ways a file is written for figure [n] from the source file
    [src]: a PDF converted to [figure<n>.png]; a PDF copied to
    [figure<n>.pdf] when the conversion to [figure<n>.png] did not
    succeed; any other file copied under its own extension. *)
Definition written_as (out_dir : Path) (n : nat) (filename : str)
    (w : @Written Path) : Prop :=
  let src := written_src w in
  let dest := joinpath out_dir filename in
  let png := joinpath out_dir (figure_name n (lit ".png")) in
  (suffix_lower src = lit ".pdf" /\ filename = figure_name n (lit ".png")
   /\ w = Converted src dest /\ conversion_succeeds src dest)
  \/ (suffix_lower src = lit ".pdf" /\ filename = figure_name n (lit ".pdf")
      /\ w = Copied src dest /\ ~ conversion_succeeds src png)
  \/ (suffix_lower src <> lit ".pdf" /\ filename = figure_name n (suffix_lower src)
      /\ w = Copied src dest).

(** What holds of a record [sf] saved for the figure [fig] from one of the
    references [refs], together with the file [w] written for it. *)
Definition saved_from (out_dir : Path) (images : list (str * Path))
    (fig : FigureRecord) (refs : list str) (sf : SavedFigure) (w : @Written Path) : Prop :=
  sf_number sf = number fig
  /\ sf_caption sf = caption fig
  /\ sf_saved_path sf = path_str (joinpath out_dir (sf_filename sf))
  /\ (exists img_ref, img_ref ∈ refs
        /\ resolve_image img_ref images = Some (written_src w))
  /\ (exists k, (k, written_src w) ∈ images)
  /\ suffix_lower (written_src w) <> lit ".eps"
  /\ written_as out_dir (number fig) (sf_filename sf) w.

Definition saved_for (out_dir : Path) (images : list (str * Path))
    (fig : FigureRecord) (sf : SavedFigure) (w : @Written Path) : Prop :=
  saved_from out_dir images fig (image_paths fig) sf w.

(** The name of a saved record is [figure<number><ext>] for one of the
    extensions [exts]. *)
Definition named_with (exts : list str) (sf : SavedFigure) : Prop :=
  exists ext, In ext exts /\ sf_filename sf = figure_name (sf_number sf) ext.

End SavedStatements.

(** ** Properties of the image resolver *)

Section ImageResolverFacts.

Context {Path : Type}.
Implicit Types (images : list (str * Path)) (s run clean ext : str).

Lemma char_in_qualifier c : char_in c (lit "./") = true <-> qualifier_char c.
Proof.
  unfold qualifier_char, char_in, char_eqb, DOT, SLASH.
  change (lit "./") with [46; 47]. cbn [existsb].
  rewrite orb_false_r, orb_true_iff, !N.eqb_eq. tauto.
Qed.

Lemma lstrip_run run s :
  Forall qualifier_char run -> lstrip (lit "./") (run ++ s) = lstrip (lit "./") s.
Proof.
  induction 1 as [|c run Hc _ IH]; [reflexivity|].
  cbn [app lstrip]. apply char_in_qualifier in Hc. now rewrite Hc.
Qed.

Lemma lstrip_decompose s :
  exists run, s = run ++ lstrip (lit "./") s /\ Forall qualifier_char run.
Proof.
  induction s as [|c t [run [Heq Hrun]]].
  - exists []. split; [reflexivity | constructor].
  - cbn [lstrip]. destruct (char_in c (lit "./")) eqn:Hc.
    + exists (c :: run). split.
      * cbn [app]. f_equal. exact Heq.
      * constructor; [now apply char_in_qualifier | assumption].
    + exists []. split; [reflexivity | constructor].
Qed.

Lemma lstrip_head s c t :
  lstrip (lit "./") s = c :: t -> ~ qualifier_char c.
Proof.
  induction s as [|a s IH]; [discriminate|].
  cbn [lstrip]. destruct (char_in a (lit "./")) eqn:Ha; [exact IH|].
  intros [= -> ->] Hq. apply char_in_qualifier in Hq. congruence.
Qed.

Lemma rsplit1_aux_absent sep s :
  char_in sep s = false -> rsplit1_aux sep s = None.
Proof.
  induction s as [|c t IH]; [reflexivity|].
  cbn. rewrite orb_false_iff. intros [Hc Ht].
  rewrite (IH Ht). unfold char_eqb in *. rewrite N.eqb_sym. now rewrite Hc.
Qed.

Lemma rsplit1_aux_last sep x e :
  char_in sep e = false -> rsplit1_aux sep (x ++ sep :: e) = Some (x, e).
Proof.
  intros He. induction x as [|c x IH]; cbn.
  - rewrite (rsplit1_aux_absent _ _ He). unfold char_eqb. now rewrite N.eqb_refl.
  - now rewrite IH.
Qed.

Lemma char_in_app c a b : char_in c (a ++ b) = char_in c a || char_in c b.
Proof. apply existsb_app. Qed.

Lemma endswith_split clean ext :
  endswith clean ext = true ->
  clean = take (length clean - length ext) clean ++ ext.
Proof.
  unfold endswith, str_eqb. rewrite andb_true_iff, bool_decide_eq_true.
  intros [Hd _]. set (n := (length clean - length ext)%nat) in *.
  rewrite <- (take_drop n clean) at 1. now rewrite Hd.
Qed.

(** The key of stage 3 for an extension [.e] whose tail [e] has no dot. *)
Lemma key_no_ext_dotted clean e :
  char_in DOT e = false ->
  key_no_ext clean (DOT :: e) =
    if endswith clean (DOT :: e)
    then take (length clean - length (DOT :: e)) clean
    else clean.
Proof.
  intros He. unfold key_no_ext.
  destruct (endswith clean (DOT :: e)) eqn:Hend; cbn [negb].
  - pose proof (endswith_split _ _ Hend) as Hsplit.
    set (x := take _ clean) in *. rewrite Hsplit.
    rewrite char_in_app. replace (char_in DOT (DOT :: e)) with true by reflexivity.
    rewrite orb_true_r. unfold rsplit1. now rewrite rsplit1_aux_last.
  - rewrite char_in_app. replace (char_in DOT (DOT :: e)) with true by reflexivity.
    rewrite orb_true_r. unfold rsplit1. now rewrite rsplit1_aux_last.
Qed.

Lemma key_no_ext_common clean ext :
  In ext COMMON_EXTENSIONS ->
  key_no_ext clean ext =
    if endswith clean ext then take (length clean - length ext) clean else clean.
Proof.
  intros Hin. cbn in Hin.
  repeat (destruct Hin as [<- | Hin]; [now apply key_no_ext_dotted|]).
  destruct Hin.
Qed.

(** The loop of stage 3 returns the file of the first extension, in the
    order of the list, whose key is in the index. *)
Lemma extension_loop_first_hit clean (exts : list str) images (p : Path) :
  extension_loop clean exts images = Some p <->
  exists before e after,
    exts = before ++ e :: after
    /\ dict_get (key_no_ext clean e) images = Some p
    /\ forall e', In e' before -> dict_get (key_no_ext clean e') images = None.
Proof.
  induction exts as [|ext rest IH]; cbn [extension_loop].
  - split; [discriminate|]. intros (before & e & after & Heq & _).
    destruct before; discriminate.
  - destruct (dict_get (key_no_ext clean ext) images) as [q|] eqn:Hget.
    + split.
      * intros [= ->]. exists [], ext, rest.
        split; [reflexivity|]. split; [exact Hget | intros e' []].
      * intros (before & e & after & Heq & Hhit & Hmiss).
        destruct before as [|b before]; cbn [app] in Heq; injection Heq as -> ->.
        -- congruence.
        -- rewrite Hmiss in Hget by now left. discriminate.
    + rewrite IH. split.
      * intros (before & e & after & -> & Hhit & Hmiss).
        exists (ext :: before), e, after. split; [reflexivity|]. split; [exact Hhit|].
        intros e' [<-|He']; [exact Hget | now apply Hmiss].
      * intros (before & e & after & Heq & Hhit & Hmiss).
        destruct before as [|b before]; cbn [app] in Heq; injection Heq as -> ->.
        -- congruence.
        -- exists before, e, after. split; [reflexivity|]. split; [exact Hhit|].
           intros e' He'. apply Hmiss. now right.
Qed.

Lemma extension_loop_none clean (exts : list str) images :
  extension_loop clean exts images = None <->
  forall ext, In ext exts -> dict_get (key_no_ext clean ext) images = None.
Proof.
  induction exts as [|ext rest IH]; cbn [extension_loop].
  - split; [intros _ e [] | reflexivity].
  - destruct (dict_get (key_no_ext clean ext) images) as [q|] eqn:Hget.
    + split; [discriminate|]. intros Hall. rewrite Hall in Hget by now left. discriminate.
    + rewrite IH. split.
      * intros Hall e [<-|He]; [exact Hget | now apply Hall].
      * intros Hall e He. apply Hall. now right.
Qed.

End ImageResolverFacts.

(** ** Claims about the image resolver *)

(** C6. An exact stem-key match wins over every fallback stage: when the
    reference itself is a key of the index, [resolve_image] returns the file
    bound to that key; with the reference [figs/plot] and the keys
    [figs/plot -> A] and [plot -> B], in either order, it returns [A]. *)
Theorem resolve_image_exact_first {Path : Type}
    (img_ref : str) (images : list (str * Path)) (A : Path) :
  dict_get img_ref images = Some A ->
  resolve_image img_ref images = Some A
  /\ (forall B : Path,
        resolve_image (lit "figs/plot") [(lit "figs/plot", A); (lit "plot", B)] = Some A
        /\ resolve_image (lit "figs/plot") [(lit "plot", B); (lit "figs/plot", A)] = Some A).
Proof.
  intros Hget. split.
  - unfold resolve_image, exact_match. now rewrite Hget.
  - intros B. split; reflexivity.
Qed.

Lemma resolve_image_exact_first_witness :
  dict_get (lit "plot") [(lit "figs/plot", 1%nat); (lit "plot", 2%nat)] = Some 2%nat
  /\ resolve_image (lit "plot") [(lit "figs/plot", 1%nat); (lit "plot", 2%nat)] = Some 2%nat.
Proof.
  split; [reflexivity|].
  apply (resolve_image_exact_first (lit "plot")
           [(lit "figs/plot", 1%nat); (lit "plot", 2%nat)] 2%nat).
  reflexivity.
Defined.

(** C7, as stated, fails: for the index [diagrams/arch -> X] and the
    reference [./diagrams/arch.png] the lookup of the qualifier-stripped
    reference (stage 2) misses, so resolution does not succeed there; and
    the key stage 3 looks up for [.png] is not the extension-stripped
    reference with [.png] appended. *)
Lemma stripped_stage_misses_arch_png :
  ~ (stripped_match (lit "./diagrams/arch.png")
       [(lit "diagrams/arch", lit "/src/diagrams/arch.png")]
     = Some (lit "/src/diagrams/arch.png"))
  /\ key_no_ext (clean_ref (lit "./diagrams/arch.png")) (lit ".png")
     <> lit "diagrams/arch" ++ lit ".png".
Proof.
  split.
  - vm_compute. discriminate.
  - vm_compute. discriminate.
Qed.

(** C7, amended. For the index [diagrams/arch -> X] and the reference
    [./diagrams/arch.png], resolution returns [X]; stages 1 and 2 miss and
    the file is found by stage 3.  Stage 3 looks up, for each extension of
    the preference list, the qualifier-stripped reference with that
    extension removed when the reference ends with it, and the
    qualifier-stripped reference itself otherwise.  It goes through the
    whole list in order: it returns the file of the first extension whose
    key is in the index, misses only when the keys of all six extensions
    are absent, and its hit is the result of the resolution when stages 1
    and 2 miss.  So [./diagrams/arch.pdf] is found at the second extension
    and [./diagrams/arch.svg] at the last. *)
Theorem extension_stage_resolves_arch_png {Path : Type} (X : Path)
    (img_ref ext : str) :
  In ext COMMON_EXTENSIONS ->
  (let ref := lit "./diagrams/arch.png" in
   let images := [(lit "diagrams/arch", X)] in
   exact_match ref images = None
   /\ stripped_match ref images = None
   /\ extension_match ref images = Some X
   /\ resolve_image ref images = Some X)
  /\ key_no_ext (clean_ref img_ref) ext =
       (if endswith (clean_ref img_ref) ext
        then take (length (clean_ref img_ref) - length ext) (clean_ref img_ref)
        else clean_ref img_ref)
  /\ (forall (images : list (str * Path)) (p : Path),
        extension_match img_ref images = Some p <->
        exists before e after,
          COMMON_EXTENSIONS = before ++ e :: after
          /\ dict_get (key_no_ext (clean_ref img_ref) e) images = Some p
          /\ forall e', In e' before ->
               dict_get (key_no_ext (clean_ref img_ref) e') images = None)
  /\ (forall images : list (str * Path),
        extension_match img_ref images = None <->
        forall e, In e COMMON_EXTENSIONS ->
          dict_get (key_no_ext (clean_ref img_ref) e) images = None)
  /\ (forall (images : list (str * Path)) (p : Path),
        exact_match img_ref images = None ->
        stripped_match img_ref images = None ->
        extension_match img_ref images = Some p ->
        resolve_image img_ref images = Some p)
  /\ (let ref := lit "./diagrams/arch.pdf" in
      let images := [(lit "diagrams/arch", X)] in
      exact_match ref images = None
      /\ stripped_match ref images = None
      /\ dict_get (key_no_ext (clean_ref ref) (lit ".png")) images = None
      /\ dict_get (key_no_ext (clean_ref ref) (lit ".pdf")) images = Some X
      /\ extension_match ref images = Some X
      /\ resolve_image ref images = Some X)
  /\ (let ref := lit "./diagrams/arch.svg" in
      let images := [(lit "diagrams/arch", X)] in
      (forall e, In e [lit ".png"; lit ".pdf"; lit ".jpg"; lit ".jpeg"; lit ".eps"] ->
         dict_get (key_no_ext (clean_ref ref) e) images = None)
      /\ extension_match ref images = Some X
      /\ resolve_image ref images = Some X).
Proof.
  intros Hin.
  split; [repeat split; reflexivity|].
  split; [now apply key_no_ext_common|].
  split; [intros images p; apply extension_loop_first_hit|].
  split; [intros images; apply extension_loop_none|].
  split.
  { intros images p H1 H2 H3. unfold resolve_image. now rewrite H1, H2, H3. }
  split; [repeat split; reflexivity|].
  cbn zeta. split; [|split; reflexivity].
  intros e He. cbn [In] in He.
  repeat (destruct He as [<-|He]; [reflexivity|]). destruct He.
Qed.

Lemma extension_stage_resolves_arch_png_witness :
  In (lit ".png") COMMON_EXTENSIONS
  /\ key_no_ext (clean_ref (lit "./fig.png")) (lit ".png") = lit "fig"
  /\ extension_match (lit "./fig.png") [(lit "other", 1%nat); (lit "fig", 0%nat)]
     = Some 0%nat.
Proof.
  split; [left; reflexivity|].
  destruct (extension_stage_resolves_arch_png 0%nat (lit "./fig.png") (lit ".png"))
    as (_ & Hkey & Hhit & _); [left; reflexivity|].
  split; [rewrite Hkey; reflexivity|].
  apply Hhit. exists [], (lit ".png"), (List.tl COMMON_EXTENSIONS).
  split; [reflexivity|]. split; [reflexivity | intros e' []].
Defined.

(** C9. The qualifier strip removes the whole leading run of ['.'] and
    ['/'] characters: the stripped reference does not start with either,
    the reference is that run followed by the stripped reference, two
    references that differ only in such a run have the same stripped key
    and the same results in stages 2 to 4, and leading dots of the first
    path segment are removed as well. *)
Theorem clean_ref_strips_leading_run {Path : Type}
    (images : list (str * Path)) (run s : str) :
  Forall qualifier_char run ->
  clean_ref (run ++ s) = clean_ref s
  /\ stripped_match (run ++ s) images = stripped_match s images
  /\ extension_match (run ++ s) images = extension_match s images
  /\ basename_match (run ++ s) images = basename_match s images
  /\ (exists r, s = r ++ clean_ref s /\ Forall qualifier_char r)
  /\ (forall c t, clean_ref s = c :: t -> ~ qualifier_char c)
  /\ clean_ref (lit "./fig") = lit "fig"
  /\ clean_ref (lit "..//fig") = lit "fig"
  /\ clean_ref (lit "fig") = lit "fig"
  /\ clean_ref (lit ".hidden/fig") = lit "hidden/fig".
Proof.
  intros Hrun.
  assert (Hclean : clean_ref (run ++ s) = clean_ref s) by now apply lstrip_run.
  unfold stripped_match, extension_match, basename_match. rewrite Hclean.
  repeat split.
  - apply lstrip_decompose.
  - intros c t. apply lstrip_head.
Qed.

Lemma clean_ref_strips_leading_run_witness :
  Forall qualifier_char (lit "../.") /\ clean_ref (lit "../." ++ lit "a/b.png") = lit "a/b.png".
Proof.
  assert (Hrun : Forall qualifier_char (lit "../.")).
  { repeat constructor; (now left) || (now right). }
  split; [exact Hrun|].
  destruct (clean_ref_strips_leading_run
              ([] : list (str * nat)) (lit "../.") (lit "a/b.png") Hrun) as [Hc _].
  rewrite Hc. reflexivity.
Defined.

(** ** Facts about scanning *)

Section Scanning.

Variable m : matcher.

Lemma finditer_from_starts s pos skip :
  Forall (fun x => (pos <= m_start x)%nat) (finditer_from m s pos skip).
Proof.
  revert pos skip. induction s as [|c t IH]; intros pos skip; cbn; [constructor|].
  destruct skip as [|k].
  - destruct (m (c :: t)) as [[g len]|].
    + constructor; [cbn; lia|].
      eapply Forall_impl; [apply IH|]. cbn. intros; lia.
    + eapply Forall_impl; [apply IH|]. cbn. intros; lia.
  - eapply Forall_impl; [apply IH|]. cbn. intros; lia.
Qed.

(** The matches come in increasing order of their start. *)
Lemma finditer_from_sorted s pos skip :
  StronglySorted (fun a b => (m_start a < m_start b)%nat) (finditer_from m s pos skip).
Proof.
  revert pos skip. induction s as [|c t IH]; intros pos skip; cbn; [constructor|].
  destruct skip as [|k]; [|apply IH].
  destruct (m (c :: t)) as [[g len]|]; [|apply IH].
  constructor; [apply IH|].
  eapply Forall_impl; [apply finditer_from_starts|]. cbn. intros; lia.
Qed.

(** A suffix in which the pattern matches nowhere yields no match. *)
Lemma finditer_from_none s pos skip :
  (forall k, m (drop k s) = None) -> finditer_from m s pos skip = [].
Proof.
  revert pos skip. induction s as [|c t IH]; intros pos skip Hnone; [reflexivity|].
  cbn. assert (Ht : forall k, m (drop k t) = None) by (intros k; apply (Hnone (S k))).
  destruct skip as [|k]; [|now apply IH].
  pose proof (Hnone 0%nat) as H0. cbn [drop] in H0. rewrite H0. now apply IH.
Qed.

(** Appending a text on which the pattern neither matches nor changes the
    matches before it leaves the matches unchanged. *)
Lemma finditer_from_app pre suf pos skip :
  (forall x, m (x ++ suf) = m x) ->
  (forall k, m (drop k suf) = None) ->
  finditer_from m (pre ++ suf) pos skip = finditer_from m pre pos skip.
Proof.
  intros Hstable Hnone. revert pos skip.
  induction pre as [|c t IH]; intros pos skip.
  - cbn [app]. now rewrite finditer_from_none.
  - cbn [app finditer_from]. destruct skip as [|k]; [|apply IH].
    change (c :: t ++ suf) with ((c :: t) ++ suf). rewrite (Hstable (c :: t)).
    destruct (m (c :: t)) as [[g len]|]; [f_equal|]; apply IH.
Qed.

End Scanning.

(** ** Claims about the figure parser *)

Lemma figure_loop_numbers ms n :
  List.map number (figure_loop ms n) = seq (S n) (length ms).
Proof.
  revert n. induction ms as [|m ms IH]; intros n; [reflexivity|].
  cbn [figure_loop List.map length seq]. rewrite IH.
  replace (n + 1)%nat with (S n) by lia. reflexivity.
Qed.

Lemma figure_loop_lookup ms n i :
  figure_loop ms n !! i = figure_of_match (S (n + i)) <$> ms !! i.
Proof.
  revert n i. induction ms as [|m ms IH]; intros n i; [reflexivity|].
  destruct i as [|i]; cbn [figure_loop].
  - cbn. do 2 f_equal. lia.
  - cbn [lookup list_lookup]. rewrite IH. cbn. do 2 f_equal. lia.
Qed.

(** C2. Figure numbers follow the order of the figure environments found
    in the text: the records correspond one to one to the matches of the
    figure pattern, which are ordered by the position of their opening, and
    the n-th record has number n, starting at 1 without gaps, whatever the
    number of images and captions in its body. *)
Theorem figure_numbers_in_order (tex_content : str) :
  let spans := finditer fig_pattern tex_content in
  let figures := parse_figures_from_tex tex_content in
  List.map number figures = seq 1 (length spans)
  /\ length figures = length spans
  /\ StronglySorted (fun a b => (m_start a < m_start b)%nat) spans
  /\ (forall i, figures !! i = figure_of_match (S i) <$> spans !! i)
  /\ (forall i r, figures !! i = Some r -> number r = S i)
  /\ List.map (fun r => (number r, length (image_paths r)))
       (parse_figures_from_tex three_figures)
     = [(1, 2); (2, 0); (3, 0)]%nat.
Proof.
  cbn zeta. unfold parse_figures_from_tex.
  split; [apply figure_loop_numbers|].
  split; [rewrite <- (length_map number), figure_loop_numbers; apply length_seq|].
  split; [apply finditer_from_sorted|].
  split; [intros i; apply figure_loop_lookup|].
  split; [|vm_compute; reflexivity].
  intros i r. rewrite figure_loop_lookup.
  destruct (finditer fig_pattern tex_content !! i); [|discriminate].
  cbn. intros [= <-]. reflexivity.
Qed.

Lemma truncate_caption_long c :
  (120 < length c)%nat ->
  truncate_caption c = take 117 c ++ lit "..."
  /\ length (take 117 c) = 117%nat
  /\ length (truncate_caption c) = 120%nat.
Proof.
  intros Hlen. unfold truncate_caption.
  destruct (Nat.ltb_spec 120 (length c)) as [_|Hle]; [|lia].
  rewrite length_app, length_take.
  repeat split; try reflexivity.
  - lia.
  - change (length (lit "...")) with 3%nat. lia.
Qed.

Lemma truncate_caption_short c :
  (length c <= 120)%nat -> truncate_caption c = c.
Proof.
  intros Hlen. unfold truncate_caption.
  destruct (Nat.ltb_spec 120 (length c)) as [Hlt|_]; [lia | reflexivity].
Qed.

Lemma caption_rule_figure n m :
  caption_rule (figure_of_match n m) (cleaned_caption (m_group m)).
Proof.
  unfold caption_rule. cbn [figure_of_match caption].
  set (c := cleaned_caption (m_group m)).
  split; [apply truncate_caption_long|].
  split; [apply truncate_caption_short|].
  split.
  - intros Hne. destruct (Nat.le_gt_cases (length c) 120) as [Hle|Hgt]; [|exact Hgt].
    now rewrite truncate_caption_short in Hne.
  - intros Hlt Heq. destruct (truncate_caption_long c Hlt) as (_ & _ & Hlen).
    rewrite Heq in Hlen. lia.
Qed.

(** C5. For every figure span the caption of the record is the cleaned
    caption cut to its first 117 characters followed by three dots exactly
    when the cleaned caption is longer than 120 characters, and the cleaned
    caption itself otherwise; a cleaned caption of exactly 120 characters is
    unchanged. *)
Theorem caption_truncated_above_120 (tex_content : str) :
  Forall2 (fun r m => caption_rule r (cleaned_caption (m_group m)))
    (parse_figures_from_tex tex_content) (finditer fig_pattern tex_content)
  /\ (forall c, length c = 120%nat -> truncate_caption c = c)
  /\ List.map caption (parse_figures_from_tex (figure_with_caption 120))
     = [replicate 120 97]
  /\ List.map caption (parse_figures_from_tex (figure_with_caption 121))
     = [replicate 117 97 ++ lit "..."].
Proof.
  split; [|split; [|split; vm_compute; reflexivity]].
  - unfold parse_figures_from_tex. generalize 0%nat.
    induction (finditer fig_pattern tex_content) as [|m ms IH]; intros n; cbn.
    + constructor.
    + constructor; [apply caption_rule_figure | apply IH].
  - intros c Hc. apply truncate_caption_short. lia.
Qed.

(** ** An opening without an end marker *)

Lemma strip_prefix_drop p s r :
  strip_prefix p s = Some r -> r = drop (length p) s /\ (length p <= length s)%nat.
Proof.
  revert s. induction p as [|a p IH]; intros s; cbn.
  - intros [= <-]. split; [reflexivity | lia].
  - destruct s as [|b s]; [discriminate|].
    destruct (char_eqb a b); [|discriminate].
    intros Hr. destruct (IH _ Hr). cbn. split; [assumption | lia].
Qed.

(** A keyword without a backslash cannot run into a following backslash. *)
Lemma strip_prefix_app_backslash p x tl :
  char_in BACKSLASH p = false ->
  strip_prefix p (x ++ BACKSLASH :: tl) =
    (fun r => r ++ BACKSLASH :: tl) <$> strip_prefix p x.
Proof.
  revert x. induction p as [|a p IH]; intros x Hp; [reflexivity|].
  cbn in Hp. apply orb_false_iff in Hp as [Ha Hp].
  destruct x as [|b x]; cbn.
  - unfold char_eqb in *. rewrite N.eqb_sym, Ha. reflexivity.
  - destruct (char_eqb a b); [now apply IH | reflexivity].
Qed.

Lemma strip_prefix_keyword_app p x tl :
  char_in BACKSLASH p = false -> x <> [] ->
  strip_prefix (BACKSLASH :: p) (x ++ BACKSLASH :: tl) =
    (fun r => r ++ BACKSLASH :: tl) <$> strip_prefix (BACKSLASH :: p) x.
Proof.
  intros Hp Hx. destruct x as [|b x]; [congruence|]. cbn.
  destruct (char_eqb BACKSLASH b); [now apply strip_prefix_app_backslash | reflexivity].
Qed.

Lemma star_brace_app_backslash r tl :
  star_brace (r ++ BACKSLASH :: tl) = star_brace r.
Proof.
  destruct r as [|c [|d r]]; unfold star_brace; cbn.
  - destruct tl; reflexivity.
  - replace (char_eqb BACKSLASH RBRACE) with false by reflexivity.
    now rewrite andb_false_r.
  - reflexivity.
Qed.

Lemma star_brace_length r n : star_brace r = Some n -> (n <= length r)%nat.
Proof.
  unfold star_brace. destruct r as [|c [|d r]]; cbn; try discriminate.
  - destruct (char_eqb c RBRACE); intros [= <-]; lia.
  - destruct (char_eqb c STAR && char_eqb d RBRACE); [intros [= <-]; lia|].
    destruct (char_eqb c RBRACE); intros [= <-]; lia.
Qed.

Lemma body_until_end_tail c t :
  body_until_end (c :: t) = None -> body_until_end t = None.
Proof.
  cbn [body_until_end]. destruct (end_marker (c :: t)); [discriminate|].
  destruct (body_until_end t) as [[b n]|]; [discriminate | reflexivity].
Qed.

Lemma body_until_end_head s :
  body_until_end s = None -> end_marker s = None.
Proof.
  destruct s as [|c t]; cbn [body_until_end].
  - destruct (end_marker []); [discriminate | reflexivity].
  - destruct (end_marker (c :: t)); [discriminate | reflexivity].
Qed.

Lemma body_until_end_drop s k :
  body_until_end s = None -> body_until_end (drop k s) = None.
Proof.
  revert s. induction k as [|k IH]; intros s Hs; [exact Hs|].
  destruct s as [|c t]; [exact Hs|]. cbn. apply IH. now apply body_until_end_tail with c.
Qed.

(** [body_until_end s = None] says that no end marker occurs in [s]. *)
Lemma body_until_end_None_iff s :
  body_until_end s = None <-> forall k, end_marker (drop k s) = None.
Proof.
  split.
  - intros Hs k. now apply body_until_end_head, body_until_end_drop.
  - induction s as [|c t IH]; intros Hall.
    + reflexivity.
    + cbn [body_until_end]. pose proof (Hall 0%nat) as H0. cbn [drop] in H0.
      rewrite H0, IH; [reflexivity|]. intros k. apply (Hall (S k)).
Qed.

Lemma fig_pattern_no_end s : body_until_end s = None -> fig_pattern s = None.
Proof.
  intros Hs. unfold fig_pattern.
  destruct (strip_prefix _ s) as [r|] eqn:Hr; [|reflexivity].
  apply strip_prefix_drop in Hr as [-> _].
  destruct (star_brace _) as [n|]; [|reflexivity].
  rewrite drop_drop. now rewrite body_until_end_drop.
Qed.

Section AfterLastEnd.

(** [suf] starts with a backslash and contains no end marker. *)
Variables (tl : str).
Let suf : str := BACKSLASH :: tl.
Hypothesis no_end : body_until_end suf = None.

Lemma end_marker_app x : end_marker (x ++ suf) = end_marker x.
Proof.
  destruct x as [|b x].
  - cbn [app]. now rewrite body_until_end_head.
  - unfold end_marker. change (lit "\end{figure") with (BACKSLASH :: lit "end{figure").
    unfold suf. rewrite strip_prefix_keyword_app by (reflexivity || discriminate).
    destruct (strip_prefix _ (b :: x)) as [r|]; [|reflexivity].
    cbn [fmap option_fmap option_map]. now rewrite star_brace_app_backslash.
Qed.

Lemma body_until_end_app x : body_until_end (x ++ suf) = body_until_end x.
Proof.
  induction x as [|c t IH].
  - cbn [app]. rewrite no_end. reflexivity.
  - change ((c :: t) ++ suf) with (c :: (t ++ suf)).
    cbn [body_until_end].
    change (c :: (t ++ suf)) with ((c :: t) ++ suf).
    now rewrite end_marker_app, IH.
Qed.

Lemma fig_pattern_app x : fig_pattern (x ++ suf) = fig_pattern x.
Proof.
  destruct x as [|b x].
  - cbn [app]. now rewrite fig_pattern_no_end.
  - unfold fig_pattern. change (lit "\begin{figure") with (BACKSLASH :: lit "begin{figure").
    unfold suf at 1. rewrite strip_prefix_keyword_app by (reflexivity || discriminate).
    destruct (strip_prefix _ (b :: x)) as [r|]; [|reflexivity].
    cbn [fmap option_fmap option_map]. rewrite star_brace_app_backslash.
    destruct (star_brace r) as [n|] eqn:Hn; [|reflexivity].
    apply star_brace_length in Hn.
    rewrite drop_app_le by exact Hn. fold suf. now rewrite body_until_end_app.
Qed.

Lemma parse_figures_app pre :
  parse_figures_from_tex (pre ++ suf) = parse_figures_from_tex pre.
Proof.
  unfold parse_figures_from_tex, finditer. f_equal.
  apply finditer_from_app.
  - apply fig_pattern_app.
  - intros k. now apply fig_pattern_no_end, body_until_end_drop.
Qed.

End AfterLastEnd.

Lemma begin_figure_no_end rest :
  body_until_end rest = None ->
  body_until_end (lit "\begin{figure}" ++ rest) = None
  /\ body_until_end (lit "\begin{figure*}" ++ rest) = None.
Proof.
  intros Hrest. split.
  - apply body_until_end_None_iff. intros k.
    do 14 (destruct k as [|k]; [reflexivity|]).
    change (drop _ _) with (drop k rest). now apply body_until_end_None_iff.
  - apply body_until_end_None_iff. intros k.
    do 15 (destruct k as [|k]; [reflexivity|]).
    change (drop _ _) with (drop k rest). now apply body_until_end_None_iff.
Qed.

(** C10. An opening marker after which the text contains no end marker
    produces no record: the records of the whole text are those of the text
    before the opening, so the unterminated opening adds no record and
    changes the number of none.  [body_until_end rest = None] says that no
    end marker occurs in [rest]. *)
Theorem unterminated_figure_yields_no_record (pre rest : str) :
  body_until_end rest = None ->
  parse_figures_from_tex (pre ++ lit "\begin{figure}" ++ rest)
    = parse_figures_from_tex pre
  /\ parse_figures_from_tex (pre ++ lit "\begin{figure*}" ++ rest)
    = parse_figures_from_tex pre.
Proof.
  intros Hrest. destruct (begin_figure_no_end rest Hrest) as [H1 H2].
  split.
  - exact (parse_figures_app (lit "begin{figure}" ++ rest) H1 pre).
  - exact (parse_figures_app (lit "begin{figure*}" ++ rest) H2 pre).
Qed.

Lemma unterminated_figure_yields_no_record_witness :
  body_until_end (lit " \includegraphics{c}\caption{lost} \end{figure") = None
  /\ List.map number
       (parse_figures_from_tex
          (lit "\begin{figure}\includegraphics{a}\end{figure} x \begin{figure*}b\end{figure*}"
           ++ lit "\begin{figure}" ++ lit " \includegraphics{c}\caption{lost} \end{figure"))
     = [1; 2]%nat.
Proof.
  split; [vm_compute; reflexivity|].
  destruct (unterminated_figure_yields_no_record
              (lit "\begin{figure}\includegraphics{a}\end{figure} x \begin{figure*}b\end{figure*}")
              (lit " \includegraphics{c}\caption{lost} \end{figure")) as [Heq _].
  - vm_compute. reflexivity.
  - rewrite Heq. vm_compute. reflexivity.
Defined.

(** ** Claims about the extraction loop *)

Lemma str_eqb_refl (a : str) : str_eqb a a = true.
Proof. unfold str_eqb. now apply bool_decide_eq_true. Qed.

Section PipelineFacts.

Context {Path : Type} `{SourceTree Path} `{Rasterizer Path}.
Implicit Types (out_dir : Path) (images : list (str * Path)) (fig : FigureRecord).

(** The saving loop keeps what was saved and appends the records of the
    following figures until the cap is reached. *)
Lemma save_loop_saved out_dir images figures saved written :
  (length saved <= MAX_FIGURES)%nat ->
  fst (save_loop out_dir images figures saved written)
  = saved ++ take (MAX_FIGURES - length saved) (omap (saved_of out_dir images) figures).
Proof.
  revert saved written.
  induction figures as [|fig rest IH]; intros saved written Hlen.
  - cbn. now rewrite take_nil, app_nil_r.
  - cbn [save_loop omap list_omap].
    destruct (Nat.leb_spec MAX_FIGURES (length saved)) as [Hfull|Hroom].
    + replace (MAX_FIGURES - length saved)%nat with 0%nat by lia.
      cbn. now rewrite app_nil_r.
    + unfold saved_of at 1.
      destruct (save_first out_dir images fig (image_paths fig)) as [[sf w]|]; cbn [fmap option_fmap option_map fst].
      * rewrite IH by (rewrite length_app; cbn; lia).
        rewrite length_app. cbn [length].
        replace (MAX_FIGURES - length saved)%nat
          with (S (MAX_FIGURES - (length saved + 1)))%nat by lia.
        cbn [take]. now rewrite <- app_assoc.
      * now apply IH.
Qed.


Lemma omap_all_some {A B} (f : A -> option B) (g : B -> nat) (h : A -> nat) (l : list A) :
  (forall a, a ∈ l -> exists b, f a = Some b /\ g b = h a) ->
  length (omap f l) = length l /\ List.map g (omap f l) = List.map h l.
Proof.
  induction l as [|a l IH]; intros Hall; [split; reflexivity|].
  destruct (Hall a) as (b & Hb & Hg); [left|].
  destruct IH as [IH1 IH2]; [intros x Hx; apply Hall; now right|].
  cbn. rewrite Hb. cbn. rewrite IH1, IH2, Hg. split; reflexivity.
Qed.

Lemma save_first_number out_dir images fig refs sf w :
  save_first out_dir images fig refs = Some (sf, w) -> sf_number sf = number fig.
Proof.
  induction refs as [|r refs IH]; cbn [save_first]; [discriminate|].
  destruct (resolve_image r images) as [p|]; [|exact IH].
  destruct (str_eqb (suffix_lower p) (lit ".eps")); [exact IH|].
  destruct (str_eqb (suffix_lower p) (lit ".pdf")).
  - destruct (convert_pdf_to_png _ _ _); intros [= <- _]; reflexivity.
  - intros [= <- _]; reflexivity.
Qed.



End PipelineFacts.

(** C3. A run saves at most [MAX_FIGURES] figures: the saved list is the
    first [MAX_FIGURES] of the records the figures contribute, in order.
    When every figure has a reference that is saved, the saved figures are
    those of the first [MAX_FIGURES] records; for a text with 15 figure
    environments that all resolve, the parser still returns 15 records and
    exactly the figures 1 to 10 are saved. *)
Theorem saved_figures_at_most_max {Path : Type} `{SourceTree Path} `{Rasterizer Path}
    (out_dir : Path) (images : list (str * Path)) (tex_content : str) :
  let figures := parse_figures_from_tex tex_content in
  let saved := fst (extract_figures out_dir images tex_content) in
  (length saved <= MAX_FIGURES)%nat
  /\ saved = take MAX_FIGURES (omap (saved_of out_dir images) figures)
  /\ ((forall fig, fig ∈ figures -> is_Some (saved_of out_dir images fig)) ->
      length saved = Nat.min MAX_FIGURES (length figures)
      /\ List.map sf_number saved = take MAX_FIGURES (List.map number figures))
  /\ (let tree := memory_tree [] in
      let tool := constant_rasterizer Completed true in
      let index := [(lit "img", lit "/src/img.png")] in
      length (parse_figures_from_tex fifteen_figures) = 15%nat
      /\ Forall (fun fig => is_Some (saved_of (lit "/out") index fig))
           (parse_figures_from_tex fifteen_figures)
      /\ List.map sf_filename (fst (extract_figures (lit "/out") index fifteen_figures))
         = List.map (fun n => lit "figure" ++ str_of_nat n ++ lit ".png") (seq 1 10)).
Proof.
  cbn zeta. unfold extract_figures.
  set (figures := parse_figures_from_tex tex_content).
  assert (Hsaved : fst (save_loop out_dir images figures [] [])
                   = take MAX_FIGURES (omap (saved_of out_dir images) figures)).
  { rewrite save_loop_saved by (cbn; lia). cbn [app length]. f_equal. }
  rewrite Hsaved. split; [rewrite length_take; lia|].
  split; [reflexivity|]. split.
  - intros Hall.
    destruct (omap_all_some (saved_of out_dir images) sf_number number figures)
      as [Hlen Hmap].
    { intros fig Hfig. destruct (Hall fig Hfig) as [sf Hsf]. exists sf.
      split; [exact Hsf|]. unfold saved_of in Hsf.
      destruct (save_first out_dir images fig (image_paths fig)) as [[sf' w]|] eqn:Hs;
        [|discriminate].
      cbn in Hsf. injection Hsf as <-. now apply save_first_number in Hs. }
    split.
    + rewrite length_take, Hlen. reflexivity.
    + rewrite <- Hmap. symmetry. apply firstn_map.
  - split; [vm_compute; reflexivity|].
    split; [|vm_compute; reflexivity].
    apply Forall_forall. intros fig Hfig.
    assert (Hdec : forallb (fun fig => bool_decide (is_Some
              (@saved_of str (memory_tree []) (constant_rasterizer Completed true)
                 (lit "/out") [(lit "img", lit "/src/img.png")] fig)))
              (parse_figures_from_tex fifteen_figures) = true)
      by (vm_compute; reflexivity).
    rewrite forallb_forall in Hdec. apply list_elem_of_In in Hfig.
    specialize (Hdec fig Hfig). now apply bool_decide_eq_true in Hdec.
Qed.





(** ** Claims about the document assembler *)

Section AssemblerFacts.

Context {Path : Type} `{SourceTree Path}.
Variable src_dir : Path.

Lemma budget_mono st st' : visited st ⊆ visited st' -> (budget st' <= budget st)%nat.
Proof.
  intros Hsub. apply subseteq_size. intros x Hx.
  apply elem_of_difference in Hx as [Hx Hnew]. apply elem_of_difference.
  split; [exact Hx|]. intros Hold. apply Hnew, Hsub, Hold.
Qed.

Lemma budget_visit r st rs :
  r ∈ tree_files -> r ∉ visited st ->
  (budget {| visited := {[ r ]} ∪ visited st; reads := rs |} < budget st)%nat.
Proof.
  intros Hin Hnot. apply subset_size. unfold budget; cbn. split.
  - intros x Hx. apply elem_of_difference in Hx as [Hx Hnew].
    apply elem_of_difference. split; [exact Hx|].
    intros Hold. apply Hnew, elem_of_union_r, Hold.
  - intros Hsub. assert (Hr : r ∈ tree_files ∖ ({[r]} ∪ visited st)).
    { apply Hsub, elem_of_difference. split; assumption. }
    apply elem_of_difference in Hr as [_ Hr].
    apply Hr, elem_of_union_l, elem_of_singleton. reflexivity.
Qed.

Lemma returns_within_ret {A} n (a : A) : returns_within n (asm_ret a).
Proof. intros st _. exists a, st. split; [reflexivity|]. split; [set_solver | tauto]. Qed.

Lemma returns_within_bind {A B} n (c : Asm A) (k : A -> Asm B) :
  returns_within n c -> (forall a, returns_within n (k a)) ->
  returns_within n (asm_bind c k).
Proof.
  intros Hc Hk st Hst.
  destruct (Hc st Hst) as (a & st1 & Hrun & Hsub & Hok).
  destruct (Hk a st1) as (b & st2 & Hrun2 & Hsub2 & Hok2).
  { pose proof (budget_mono _ _ Hsub). lia. }
  exists b, st2. unfold asm_bind. rewrite Hrun. split; [exact Hrun2|].
  split; [set_solver | tauto].
Qed.

Lemma include_loop_returns n self tex_path content ms last_end result :
  (forall child, returns_within n (self child)) ->
  returns_within n (include_loop self tex_path src_dir content ms last_end result).
Proof.
  intros Hself. revert last_end result.
  induction ms as [|m rest IH]; intros last_end result; cbn [include_loop].
  - apply returns_within_ret.
  - destruct (_find_tex_file _ _ _) as [child|]; [|apply IH].
    destruct (path_exists child); [|apply IH].
    apply returns_within_bind; [apply Hself|]. intros r. apply IH.
Qed.

(** The call returns whenever the fuel exceeds the number of files not yet
    visited. *)
Lemma resolve_tex_content_in_returns fuel tex_path :
  returns_within fuel (resolve_tex_content_in fuel tex_path src_dir).
Proof.
  revert tex_path. induction fuel as [|fuel IH]; intros tex_path st Hst; [lia|].
  cbn [resolve_tex_content_in]. unfold asm_bind, is_visited, visit, read_file. cbn.
  case_bool_decide as Hseen.
  - exists [], st. split; [reflexivity|]. split; [set_solver | tauto].
  - set (st2 := {| visited := {[resolved tex_path]} ∪ visited st;
                   reads := reads st ++ [resolved tex_path] |}).
    assert (Hok2 : reads_ok st -> reads_ok st2).
    { intros [Hnd Hin]. split; cbn.
      - apply NoDup_app. split; [exact Hnd|]. split.
        + intros x Hx Hx'. apply list_elem_of_singleton in Hx'. subst x.
          apply Hseen, Hin, Hx.
        + apply NoDup_singleton.
      - intros r Hr. apply elem_of_app in Hr as [Hr|Hr].
        + apply elem_of_union_r, Hin, Hr.
        + apply list_elem_of_singleton in Hr. subst r.
          apply elem_of_union_l, elem_of_singleton. reflexivity. }
    assert (Hsub2 : visited st ⊆ visited st2) by (cbn; set_solver).
    destruct (read_text tex_path) as [content|] eqn:Hread.
    + assert (Hb : (budget st2 < fuel)%nat).
      { pose proof (budget_visit (resolved tex_path) st
                      (reads st ++ [resolved tex_path])
                      (read_text_in_tree _ _ Hread) Hseen). fold st2 in H0. lia. }
      destruct (include_loop_returns fuel
                  (fun child => resolve_tex_content_in fuel child src_dir)
                  tex_path content (finditer input_pattern content) 0 []
                  (fun child => IH child) st2 Hb)
        as (text & st' & Hrun & Hsub & Hok).
      exists text, st'. split; [exact Hrun|]. split; [set_solver | tauto].
    + exists [], st2. split; [reflexivity|]. split; [exact Hsub2 | exact Hok2].
Qed.

(** More fuel does not change a result. *)
Lemma include_loop_mono (self self' : Path -> Asm str) tex_path content ms :
  (forall child st x, self child st = Some x -> self' child st = Some x) ->
  forall last_end result st x,
    include_loop self tex_path src_dir content ms last_end result st = Some x ->
    include_loop self' tex_path src_dir content ms last_end result st = Some x.
Proof.
  intros Hself. induction ms as [|m rest IH]; intros last_end result st x;
    cbn [include_loop]; [trivial|].
  destruct (_find_tex_file _ _ _) as [child|]; [|apply IH].
  destruct (path_exists child); [|apply IH].
  unfold asm_bind. destruct (self child st) as [[r st1]|] eqn:Hrun; [|discriminate].
  rewrite (Hself _ _ _ Hrun). apply IH.
Qed.

Lemma resolve_tex_content_in_mono fuel fuel' tex_path st x :
  (fuel <= fuel')%nat ->
  resolve_tex_content_in fuel tex_path src_dir st = Some x ->
  resolve_tex_content_in fuel' tex_path src_dir st = Some x.
Proof.
  revert fuel' tex_path st x.
  induction fuel as [|fuel IH]; intros fuel' tex_path st x Hle; [discriminate|].
  destruct fuel' as [|fuel']; [lia|].
  cbn [resolve_tex_content_in]. unfold asm_bind, is_visited, visit, read_file. cbn.
  case_bool_decide; [trivial|].
  destruct (read_text tex_path) as [content|]; [|trivial].
  apply include_loop_mono. intros child st1 y. apply IH. lia.
Qed.

(** A file already visited expands to the empty text and changes nothing. *)
Lemma resolve_tex_content_in_visited fuel tex_path st :
  resolved tex_path ∈ visited st ->
  resolve_tex_content_in (S fuel) tex_path src_dir st = Some ([], st).
Proof.
  intros Hin. cbn [resolve_tex_content_in]. unfold asm_bind, is_visited. cbn.
  now rewrite bool_decide_eq_true_2.
Qed.

End AssemblerFacts.

(** C1. Assembly terminates for every root file and source tree: with fuel
    above the number of files of the tree the call returns, and the result
    does not depend on the fuel.  No file is read twice in one top-level
    call, and a call on a file already visited returns the empty text.  A
    file that includes itself is expanded once ([AB]), and so is each file
    of a two-file cycle ([A1 B1 B2 B3 A2]). *)
Theorem assembly_terminates_once_per_file {Path : Type} `{SourceTree Path}
    (tex_path src_dir : Path) (fuel : nat) :
  (size tree_files < fuel)%nat ->
  (exists text st,
      resolve_tex_content fuel tex_path src_dir = Some (text, st)
      /\ (forall fuel', (size tree_files < fuel')%nat ->
            resolve_tex_content fuel' tex_path src_dir = Some (text, st))
      /\ NoDup (reads st))
  /\ (forall n p st, resolved p ∈ visited st ->
        resolve_tex_content_in (S n) p src_dir st = Some ([], st))
  /\ text_and_reads
       (@resolve_tex_content str self_including_tree 2 (lit "/src/main.tex") (lit "/src"))
     = Some (lit "AB", [lit "/src/main.tex"])
  /\ text_and_reads
       (@resolve_tex_content str two_file_cycle_tree 3 (lit "/src/a.tex") (lit "/src"))
     = Some (lit "A1B1B2B3A2", [lit "/src/a.tex"; lit "/src/b.tex"]).
Proof.
  intros Hfuel.
  assert (Hinit : forall n, (size tree_files < n)%nat -> (budget initial_state < n)%nat).
  { intros n Hn. unfold budget, initial_state; cbn.
    apply Nat.le_lt_trans with (size tree_files); [|exact Hn].
    apply subseteq_size. intros x Hx. now apply elem_of_difference in Hx as [Hx _]. }
  split; [|split; [|split; vm_compute; reflexivity]].
  - destruct (resolve_tex_content_in_returns src_dir fuel tex_path initial_state
                (Hinit _ Hfuel)) as (text & st & Hrun & _ & Hok).
    exists text, st. split; [exact Hrun|]. split.
    + intros fuel' Hfuel'.
      destruct (resolve_tex_content_in_returns src_dir fuel' tex_path initial_state
                  (Hinit _ Hfuel')) as (text' & st' & Hrun' & _).
      unfold resolve_tex_content. rewrite Hrun'.
      destruct (Nat.le_ge_cases fuel fuel') as [Hle|Hle].
      * rewrite (resolve_tex_content_in_mono src_dir _ _ _ _ _ Hle Hrun) in Hrun'.
        now injection Hrun' as <- <-.
      * rewrite (resolve_tex_content_in_mono src_dir _ _ _ _ _ Hle Hrun') in Hrun.
        now injection Hrun as <- <-.
    + apply Hok. split; cbn; [constructor | intros r Hr; inversion Hr].
  - intros n p st. apply resolve_tex_content_in_visited.
Qed.

Lemma assembly_terminates_once_per_file_witness :
  (size (@tree_files str two_file_cycle_tree) < 3)%nat
  /\ exists text st,
       @resolve_tex_content str two_file_cycle_tree 3 (lit "/src/a.tex") (lit "/src")
         = Some (text, st)
       /\ NoDup (reads st).
Proof.
  assert (Hsize : (size (@tree_files str two_file_cycle_tree) < 3)%nat)
    by (vm_compute; lia).
  split; [exact Hsize|].
  destruct (@assembly_terminates_once_per_file str two_file_cycle_tree
              (lit "/src/a.tex") (lit "/src") 3 Hsize)
    as [(text & st & Hrun & _ & Hnodup) _].
  exists text, st. split; assumption.
Defined.

(** ** Further properties: downloads, paging and the CSV file *)

Ltac use_earlier_failure H :=
  first [ destruct (H 0%nat) as [? ?]; [lia | congruence]
        | destruct (H 1%nat) as [? ?]; [lia | congruence]
        | destruct (H 2%nat) as [? ?]; [lia | congruence]
        | destruct (H 3%nat) as [? ?]; [lia | congruence]
        | destruct (H 4%nat) as [? ?]; [lia | congruence] ].

Ltac earlier_all_fail :=
  let j := fresh "j" in let Hj := fresh "Hj" in
  intros j Hj; do 6 (try destruct j as [|j]); try lia; eauto.

(** X1. [download_source] makes at most three requests and never reaches
    its last line.  It returns the data of the first attempt that succeeds
    and raises, with the error of the third attempt, only when all three
    fail; after the first failure it sleeps 5 seconds, after the second 10,
    and not after the third. *)
Theorem download_source_three_attempts {Data Err} (net : nat -> Response Data Err) :
  let r := fst (download_source net) in
  let events := snd (download_source net) in
  r <> Unreachable
  /\ (1 <= requests events <= 3)%nat
  /\ slept events = match requests events with 1 => 0 | 2 => 5 | _ => 15 end%nat
  /\ (forall data, r = Returned data <->
        exists k, (k < 3)%nat /\ net k = Received data
                  /\ (forall j, (j < k)%nat -> exists e, net j = Failed e))
  /\ (forall e, r = Raised e <->
        net 2%nat = Failed e
        /\ (exists e0, net 0%nat = Failed e0) /\ (exists e1, net 1%nat = Failed e1))
  /\ (forall data, r = Returned data ->
        exists k, net k = Received data /\ requests events = S k).
Proof.
  cbn zeta. unfold download_source. cbn [seq download_attempts Nat.eqb].
  destruct (net 0%nat) as [d0|e0] eqn:E0;
    [|destruct (net 1%nat) as [d1|e1] eqn:E1;
       [|destruct (net 2%nat) as [d2|e2] eqn:E2]];
    cbn;
    (split; [discriminate|]);
    (split; [lia|]);
    (split; [reflexivity|]);
    (split; [|split]).
  all: try (intros data; split;
            [ intros [= <-];
              first [ exists 0%nat; split; [lia|]; split; [assumption | earlier_all_fail]
                    | exists 1%nat; split; [lia|]; split; [assumption | earlier_all_fail]
                    | exists 2%nat; split; [lia|]; split; [assumption | earlier_all_fail] ]
            | intros (k & Hk & Hrec & Hfail);
              do 3 (try destruct k as [|k]); try lia; try congruence;
              use_earlier_failure Hfail ]).
  all: try (intros e; split;
            [ intros [= <-]; eauto
            | intros (He & [? ?] & [? ?]); congruence ]).
  all: try (intros data [= <-];
            first [ exists 0%nat; split; [assumption | reflexivity]
                  | exists 1%nat; split; [assumption | reflexivity]
                  | exists 2%nat; split; [assumption | reflexivity] ]).
  all: try (intros data; split; [discriminate|];
            intros (k & Hk & Hrec & Hfail);
            do 3 (try destruct k as [|k]); try lia; congruence).
  all: try (intros e; split; [discriminate|]; intros (He & [? ?] & [? ?]); congruence).
  all: try (intros data; discriminate).
Qed.

Ltac pick_attempt tac :=
  first [ exists 1%nat; tac | exists 2%nat; tac | exists 3%nat; tac
        | exists 4%nat; tac | exists 5%nat; tac ].

(** X2. [fetch_page] makes at most [MAX_RETRIES] = 5 requests and never
    reaches its last line.  It returns the data of the first attempt that
    is not answered by [URLError] or [TimeoutError]; any other exception
    leaves at once, without a further request; the fifth such error is
    raised.  Before attempt [k + 1] it has slept 10, 20, 40, ... seconds,
    [10 * (2 ^ k - 1)] in all, at most 150. *)
Theorem fetch_page_backoff {Data Err} (net : nat -> PageResponse Data Err) :
  let r := fst (fetch_page net) in
  let events := snd (fetch_page net) in
  r <> Unreachable
  /\ (1 <= requests events <= MAX_RETRIES)%nat
  /\ slept events = (RETRY_BASE_WAIT * (2 ^ (requests events - 1) - 1))%nat
  /\ (slept events <= 150)%nat
  /\ (forall data, r = Returned data <->
        exists k, (1 <= k <= MAX_RETRIES)%nat /\ net k = PageReceived data
                  /\ unavailable_before net k)
  /\ (forall k e, (1 <= k <= MAX_RETRIES)%nat -> net k = PageCrashed e ->
        unavailable_before net k -> r = Raised e /\ requests events = k)
  /\ (forall e, net MAX_RETRIES = PageUnavailable e ->
        unavailable_before net MAX_RETRIES ->
        r = Raised e /\ requests events = MAX_RETRIES).
Proof.
  cbn zeta. unfold fetch_page, unavailable_before, MAX_RETRIES, RETRY_BASE_WAIT.
  cbn [seq fetch_attempts Nat.eqb].
  destruct (net 1%nat) as [d1|e1|c1] eqn:E1;
    [| destruct (net 2%nat) as [d2|e2|c2] eqn:E2;
       [| destruct (net 3%nat) as [d3|e3|c3] eqn:E3;
          [| destruct (net 4%nat) as [d4|e4|c4] eqn:E4;
             [| destruct (net 5%nat) as [d5|e5|c5] eqn:E5 | ] | ] | ] | ];
    cbn;
    (split; [discriminate|]);
    (split; [lia|]);
    (split; [reflexivity|]);
    (split; [lia|]);
    (split; [|split]).
  all: try (intros data; split;
            [ first [ discriminate
                    | intros [= <-];
                      pick_attempt ltac:(split; [lia|]; split; [assumption | earlier_all_fail]) ]
            | intros (k & Hk & Hrec & Hfail);
              do 6 (try destruct k as [|k]); try lia; try congruence;
              use_earlier_failure Hfail ]).
  all: try (intros k e Hk Hc Hb;
            do 6 (try destruct k as [|k]); try lia;
            first [ split; [congruence | reflexivity]
                  | congruence
                  | use_earlier_failure Hb ]).
  all: try (intros e He Hb;
            first [ split; [congruence | reflexivity]
                  | congruence
                  | use_earlier_failure Hb ]).
Qed.

Lemma page_starts_cons start n :
  page_starts start (S n) = start :: page_starts (start + MAX_RESULTS_PER_REQUEST) n.
Proof.
  unfold page_starts. cbn [seq List.map]. f_equal; [lia|].
  rewrite <- seq_shift, List.map_map. apply List.map_ext. intros i. lia.
Qed.

Lemma page_starts_one start : page_starts start 1 = [start].
Proof. unfold page_starts. cbn. f_equal. lia. Qed.

Lemma fetch_all_loop_paged {E} (page : nat -> option (list E * Z)) (T : Z) fuel :
  (forall s es t, page s = Some (es, t) -> (t <= T)%Z) ->
  forall start all0 starts0,
    (1 <= fuel)%nat ->
    (T <= Z.of_nat (start + MAX_RESULTS_PER_REQUEST * fuel))%Z ->
    paged_from page start fuel all0 starts0 (fetch_all_loop page fuel start all0 starts0).
Proof.
  intros Hbound. induction fuel as [|fuel IH]; intros start all0 starts0 Hfuel HT; [lia|].
  assert (Hhere : (start + MAX_RESULTS_PER_REQUEST * 0)%nat = start) by lia.
  cbn [fetch_all_loop].
  destruct (page start) as [[entries total]|] eqn:Hpage.
  - assert (Hstop : (entries = [] \/ (total <= Z.of_nat (start + MAX_RESULTS_PER_REQUEST))%Z) ->
              paged_from page start (S fuel) all0 starts0
                (AllEntries (all0 ++ entries) (starts0 ++ [start]))).
    { intros Hbreak. exists 0%nat. split; [lia|]. rewrite page_starts_one.
      split; [reflexivity|]. split; [constructor|]. rewrite Hhere. split.
      - exists entries, total. split; [exact Hpage | exact Hbreak].
      - cbn. unfold entries_at. now rewrite Hpage, app_nil_r. }
    destruct (Z.leb_spec total (Z.of_nat (start + MAX_RESULTS_PER_REQUEST))) as [Hle|Hgt];
      cbn [orb]; [apply Hstop; now right|].
    destruct (Nat.eqb_spec (length entries) 0) as [Hnil|Hsome].
    { apply Hstop. left. now destruct entries. }
    assert (Hgo : goes_on page start).
    { exists entries, total. split; [exact Hpage|]. split; [|exact Hgt].
      intros ->. now apply Hsome. }
    pose proof (Hbound _ _ _ Hpage) as HtT.
    assert (Hfuel' : (1 <= fuel)%nat).
    { destruct fuel; [|lia]. unfold MAX_RESULTS_PER_REQUEST in *. lia. }
    specialize (IH (start + MAX_RESULTS_PER_REQUEST)%nat (all0 ++ entries)
                  (starts0 ++ [start]) Hfuel').
    assert (HT' : (T <= Z.of_nat (start + MAX_RESULTS_PER_REQUEST
                                  + MAX_RESULTS_PER_REQUEST * fuel))%Z) by lia.
    specialize (IH HT').
    assert (Hnext : forall m, (start + MAX_RESULTS_PER_REQUEST
                               + MAX_RESULTS_PER_REQUEST * m)%nat
                              = (start + MAX_RESULTS_PER_REQUEST * S m)%nat) by (intros m; lia).
    destruct (fetch_all_loop page fuel _ _ _) as [all starts|starts|]; cbn [paged_from] in IH |- *.
    + destruct IH as (m & Hm & Hstarts & Hgoes & Hbreak & Hall). exists (S m).
      split; [lia|]. rewrite (page_starts_cons start (S m)), (page_starts_cons start m).
      split; [rewrite Hstarts, <- app_assoc; reflexivity|].
      split; [now constructor|].
      split; [now rewrite <- Hnext|].
      rewrite Hall, <- app_assoc. cbn [List.map concat].
      unfold entries_at at 2. rewrite Hpage. reflexivity.
    + destruct IH as (m & Hm & Hstarts & Hgoes & Hnone). exists (S m).
      split; [lia|]. rewrite (page_starts_cons start (S m)), (page_starts_cons start m).
      split; [rewrite Hstarts, <- app_assoc; reflexivity|].
      split; [now constructor|].
      now rewrite <- Hnext.
    + exact IH.
  - exists 0%nat. split; [lia|]. rewrite page_starts_one. split; [reflexivity|].
    split; [constructor|]. now rewrite Hhere.
Qed.

(** X3. When no page reports a total above [T], the paging loop of
    [fetch_all] ends within [fuel] requests for any [fuel] of at least
    [T / 200], and at least one.  It asks for the offsets 0, 200, 400, ...
    in order and stops at the first page that is empty, that reaches the
    total it reports, or whose request fails: every page before the last
    has entries and reports a total beyond its end.  Unless the last
    request fails, the entries of all requested pages are returned in that
    order. *)
Theorem fetch_all_pages_in_order {E} (page : nat -> option (list E * Z))
    (T : Z) (fuel : nat) :
  (forall s es t, page s = Some (es, t) -> (t <= T)%Z) ->
  (1 <= fuel)%nat ->
  (T <= Z.of_nat (MAX_RESULTS_PER_REQUEST * fuel))%Z ->
  paged_from page 0 fuel [] [] (fetch_all page fuel).
Proof.
  intros Hbound Hfuel HT. unfold fetch_all.
  now apply fetch_all_loop_paged with T.
Qed.

Lemma fetch_all_pages_in_order_witness :
  let page : nat -> option (list nat * Z) := fun s =>
    if Nat.eqb s 0 then Some ([1; 2; 3]%nat, 1000%Z)
    else if Nat.eqb s 200 then Some ([4; 5]%nat, 1000%Z)
    else Some ([]%nat, 1000%Z) in
  (forall s es t, page s = Some (es, t) -> (t <= 1000)%Z)
  /\ fetch_all page 5 = AllEntries [1; 2; 3; 4; 5]%nat [0; 200; 400]%nat
  /\ paged_from page 0 5 [] [] (fetch_all page 5).
Proof.
  cbn zeta.
  set (page := fun s : nat =>
    if Nat.eqb s 0 then Some ([1; 2; 3]%nat, 1000%Z)
    else if Nat.eqb s 200 then Some ([4; 5]%nat, 1000%Z)
    else Some ([]%nat, 1000%Z)).
  assert (Hb : forall s es (t : Z), page s = Some (es, t) -> (t <= 1000)%Z).
  { intros s es t. unfold page.
    destruct (Nat.eqb s 0); [|destruct (Nat.eqb s 200)]; intros [= _ <-]; lia. }
  split; [exact Hb|]. split; [vm_compute; reflexivity|].
  apply (fetch_all_pages_in_order page 1000%Z 5 Hb); [lia | vm_compute; discriminate].
Defined.

Section SavePapers.

Context {P : Type} (arxiv_id : P -> str).

Lemma rows_of_rows (l : list P) : rows_of (List.map Row l) = l.
Proof. unfold rows_of. induction l as [|p l IH]; cbn; [reflexivity | now f_equal]. Qed.

Lemma save_papers_rows file_exists papers existing_ids :
  rows_of (fst (save_papers arxiv_id file_exists papers existing_ids))
    = List.filter (is_new arxiv_id existing_ids) papers
  /\ snd (save_papers arxiv_id file_exists papers existing_ids)
    = length (List.filter (is_new arxiv_id existing_ids) papers).
Proof.
  unfold save_papers. fold (is_new arxiv_id existing_ids).
  destruct (List.filter (is_new arxiv_id existing_ids) papers) as [|p new] eqn:Hnew;
    [split; reflexivity|].
  cbn [fst snd]. split; [|reflexivity].
  destruct file_exists; cbn [negb app]; [apply rows_of_rows|].
  change (rows_of (Header :: List.map Row (p :: new))) with (rows_of (List.map Row (p :: new))).
  apply rows_of_rows.
Qed.

(** X4. [save_papers] appends one row for each paper whose id is not in
    [existing_ids], in the order of [papers], and returns their number.  It
    writes nothing at all when there is none, and starts with a header
    exactly when it writes rows and the file was missing or empty.  Papers
    repeated within one batch are not merged: each copy gets its row. *)
Theorem save_papers_appends_new (file_exists : bool) (papers : list P)
    (existing_ids : gset str) :
  let lines := fst (save_papers arxiv_id file_exists papers existing_ids) in
  let count := snd (save_papers arxiv_id file_exists papers existing_ids) in
  rows_of lines = List.filter (is_new arxiv_id existing_ids) papers
  /\ count = length (rows_of lines)
  /\ (count <= length papers)%nat
  /\ (forall p, p ∈ rows_of lines <-> p ∈ papers /\ arxiv_id p ∉ existing_ids)
  /\ (count = 0%nat -> lines = [])
  /\ (Header ∈ lines <-> (0 < count)%nat /\ file_exists = false)
  /\ (Header ∈ lines -> exists rest, lines = Header :: List.map Row rest)
  /\ snd (save_papers arxiv_id file_exists (papers ++ papers) existing_ids)
     = (2 * count)%nat.
Proof.
  cbn zeta.
  destruct (save_papers_rows file_exists papers existing_ids) as [Hrows Hcount].
  rewrite Hrows, Hcount.
  split; [reflexivity|]. split; [reflexivity|].
  split; [apply filter_length_le|].
  split.
  { intros p. rewrite !list_elem_of_In, filter_In. unfold is_new.
    rewrite negb_true_iff, bool_decide_eq_false. reflexivity. }
  assert (Hlines : fst (save_papers arxiv_id file_exists papers existing_ids)
            = match List.filter (is_new arxiv_id existing_ids) papers with
              | [] => []
              | new => (if negb file_exists then [Header] else []) ++ List.map Row new
              end).
  { unfold save_papers. fold (is_new arxiv_id existing_ids).
    destruct (List.filter (is_new arxiv_id existing_ids) papers); reflexivity. }
  rewrite Hlines.
  assert (Hno : forall l : list P, Header ∉ List.map Row l).
  { intros l Hin. apply list_elem_of_In, in_map_iff in Hin as (x & Hx & _). discriminate. }
  split; [|split; [|split]].
  - destruct (List.filter (is_new arxiv_id existing_ids) papers); [reflexivity | discriminate].
  - destruct (List.filter (is_new arxiv_id existing_ids) papers) as [|p new]; cbn [length].
    + split; [intros Hin; inversion Hin | lia].
    + destruct file_exists; cbn [negb app].
      * split; [intros Hin; destruct (Hno _ Hin) | intros [_ ?]; discriminate].
      * split; [intros _; split; [lia | reflexivity] | intros _; left].
  - destruct (List.filter (is_new arxiv_id existing_ids) papers) as [|p new].
    + intros Hin; inversion Hin.
    + destruct file_exists; cbn [negb app].
      * intros Hin; destruct (Hno _ Hin).
      * intros _. eexists; reflexivity.
  - destruct (save_papers_rows file_exists (papers ++ papers) existing_ids) as [_ Hc2].
    rewrite Hc2, List.filter_app, length_app. lia.
Qed.

Lemma filter_is_new_known (ids : gset str) (l : list P) :
  (forall p, In p l -> arxiv_id p ∈ ids) -> List.filter (is_new arxiv_id ids) l = [].
Proof.
  induction l as [|p rest IH]; intros Hall; [reflexivity|].
  cbn [List.filter]. unfold is_new at 1.
  rewrite bool_decide_eq_true_2 by (apply Hall; now left).
  cbn [negb]. apply IH. intros q Hq. apply Hall. now right.
Qed.

(** X5. Once the ids of a batch are among the existing ids, saving the
    batch again appends nothing and returns 0, whatever the state of the
    file. *)
Theorem save_papers_known_batch (file_exists : bool) (papers : list P)
    (existing_ids : gset str) :
  save_papers arxiv_id file_exists papers
    (existing_ids ∪ list_to_set (List.map arxiv_id papers)) = ([], 0%nat).
Proof.
  unfold save_papers. rewrite filter_is_new_known; [reflexivity|].
  intros p Hp. apply elem_of_union_r, elem_of_list_to_set, list_elem_of_In.
  now apply in_map.
Qed.

End SavePapers.

(** ** Further properties: locating the sources *)

Section LocatorFacts.

Context {Path : Type} `{SourceTree Path} `{Listing Path}.

Lemma main_tex_loop_some files f :
  main_tex_loop files = Some f <->
  exists before after,
    files = before ++ f :: after /\ declares_class f
    /\ forall g, g ∈ before -> ~ declares_class g.
Proof.
  induction files as [|a rest IH]; cbn [main_tex_loop].
  - split; [discriminate|]. intros (before & after & Hsplit & _).
    destruct before; discriminate.
  - assert (Hdec : {declares_class a} + {~ declares_class a}).
    { unfold declares_class. destruct (read_text a) as [content|].
      - destruct (has_documentclass content) eqn:Hc.
        + left. eauto.
        + right. intros (c & [= <-] & Hc'). congruence.
      - right. intros (c & Hr & _). discriminate. }
    destruct Hdec as [Ha|Hna].
    + assert (Hret : match read_text a with
                     | Some content =>
                         if has_documentclass content then Some a else main_tex_loop rest
                     | None => main_tex_loop rest
                     end = Some a).
      { destruct Ha as (c & -> & ->). reflexivity. }
      rewrite Hret. split.
      * intros [= <-]. exists [], rest. repeat split; [exact Ha|].
        intros g Hg. inversion Hg.
      * intros (before & after & Hsplit & _ & Hfirst).
        destruct before as [|b before]; [now injection Hsplit as ->|].
        injection Hsplit as <- _. destruct (Hfirst a); [left | exact Ha].
    + assert (Hskip : match read_text a with
                      | Some content =>
                          if has_documentclass content then Some a else main_tex_loop rest
                      | None => main_tex_loop rest
                      end = main_tex_loop rest).
      { destruct (read_text a) as [c|] eqn:Hr; [|reflexivity].
        destruct (has_documentclass c) eqn:Hc; [|reflexivity].
        destruct Hna. exists c. split; assumption. }
      rewrite Hskip, IH. split.
      * intros (before & after & -> & Hf & Hfirst). exists (a :: before), after.
        repeat split; [exact Hf|]. intros g Hg.
        apply elem_of_cons in Hg as [->|Hg]; [exact Hna | now apply Hfirst].
      * intros (before & after & Hsplit & Hf & Hfirst).
        destruct before as [|b before].
        -- injection Hsplit as -> _. contradiction.
        -- injection Hsplit as <- ->. exists before, after. repeat split; [exact Hf|].
           intros g Hg. apply Hfirst. now right.
Qed.

Lemma main_tex_loop_none files :
  main_tex_loop files = None <-> forall g, g ∈ files -> ~ declares_class g.
Proof.
  induction files as [|a rest IH]; cbn [main_tex_loop].
  - split; [intros _ g Hg; inversion Hg | reflexivity].
  - destruct (read_text a) as [c|] eqn:Hr.
    + destruct (has_documentclass c) eqn:Hc.
      * split; [discriminate|]. intros Hall. destruct (Hall a); [left|].
        exists c. split; assumption.
      * rewrite IH. split.
        -- intros Hall g Hg. apply elem_of_cons in Hg as [->|Hg]; [|now apply Hall].
           intros (c' & Hr' & Hc'). congruence.
        -- intros Hall g Hg. apply Hall. now right.
    + rewrite IH. split.
      * intros Hall g Hg. apply elem_of_cons in Hg as [->|Hg]; [|now apply Hall].
        intros (c' & Hr' & _). congruence.
      * intros Hall g Hg. apply Hall. now right.
Qed.

(** X6. [find_main_tex] returns the first file of the [*.tex] listing that
    can be read and whose text contains [\documentclass]: files that cannot
    be read or do not contain it are passed over, and the result is [None]
    exactly when no listed file qualifies. *)
Theorem find_main_tex_first_declaring (src_dir : Path) :
  (forall f, find_main_tex src_dir = Some f <->
     exists before after,
       rglob src_dir (lit "*.tex") = before ++ f :: after
       /\ declares_class f
       /\ forall g, g ∈ before -> ~ declares_class g)
  /\ (find_main_tex src_dir = None <->
      forall g, g ∈ rglob src_dir (lit "*.tex") -> ~ declares_class g).
Proof.
  split; [intros f; apply main_tex_loop_some | apply main_tex_loop_none].
Qed.

(** X7. [_find_tex_file] returns the first of its four candidates (next to
    the including file without and with [.tex], then below the source
    root without and with [.tex]) that exists as a regular file, and
    [None] exactly when none does; so the path it returns always exists. *)
Theorem find_tex_file_first_candidate (ref : str) (parent_dir src_dir : Path) :
  (forall c, _find_tex_file ref parent_dir src_dir = Some c <->
     exists before after,
       tex_candidates ref parent_dir src_dir = before ++ c :: after
       /\ regular_file c = true
       /\ forall g, g ∈ before -> regular_file g = false)
  /\ (_find_tex_file ref parent_dir src_dir = None <->
      forall g, g ∈ tex_candidates ref parent_dir src_dir -> regular_file g = false)
  /\ (forall c, _find_tex_file ref parent_dir src_dir = Some c -> path_exists c = true).
Proof.
  unfold _find_tex_file. change (fun c => path_exists c && is_file c) with regular_file.
  fold (tex_candidates ref parent_dir src_dir).
  generalize (tex_candidates ref parent_dir src_dir) as l. intros l.
  assert (Hsome : forall c, List.find regular_file l = Some c <->
            exists before after, l = before ++ c :: after /\ regular_file c = true
              /\ forall g, g ∈ before -> regular_file g = false).
  { induction l as [|a l IH]; intros c; cbn [List.find].
    - split; [discriminate|]. intros (before & after & Hs & _). destruct before; discriminate.
    - destruct (regular_file a) eqn:Ha.
      + split.
        * intros [= <-]. exists [], l. repeat split; [exact Ha|]. intros g Hg; inversion Hg.
        * intros (before & after & Hs & Hc & Hfirst).
          destruct before as [|b before]; [now injection Hs as ->|].
          injection Hs as <- _. rewrite (Hfirst a) in Ha by left. discriminate.
      + rewrite IH. split.
        * intros (before & after & -> & Hc & Hfirst). exists (a :: before), after.
          repeat split; [exact Hc|]. intros g Hg.
          apply elem_of_cons in Hg as [->|Hg]; [exact Ha | now apply Hfirst].
        * intros (before & after & Hs & Hc & Hfirst).
          destruct before as [|b before].
          -- injection Hs as -> _. congruence.
          -- injection Hs as <- ->. exists before, after. repeat split; [exact Hc|].
             intros g Hg. apply Hfirst. now right. }
  split; [exact Hsome|]. split.
  - split.
    + intros Hnone g Hg. apply list_elem_of_In in Hg.
      exact (find_none _ _ Hnone g Hg).
    + intros Hall. destruct (List.find regular_file l) as [c|] eqn:Hf; [|reflexivity].
      apply find_some in Hf as [Hin Hc]. rewrite Hall in Hc; [discriminate|].
      now apply list_elem_of_In.
  - intros c Hc. apply find_some in Hc as [_ Hc]. unfold regular_file in Hc.
    now apply andb_true_iff in Hc as [Hc _].
Qed.

End LocatorFacts.

(** *** The dictionary of images *)

Section DictFacts.

Context {V : Type}.
Implicit Types (d : list (str * V)) (k key : str) (v : V).

Lemma str_eqb_eq (a b : str) : str_eqb a b = true <-> a = b.
Proof. unfold str_eqb. apply bool_decide_eq_true. Qed.

Lemma str_eqb_neq (a b : str) : str_eqb a b = false <-> a <> b.
Proof. unfold str_eqb. apply bool_decide_eq_false. Qed.

Lemma dict_get_set key v d k :
  dict_get k (dict_set key v d) = if str_eqb k key then Some v else dict_get k d.
Proof.
  induction d as [|[k' v'] rest IH]; cbn [dict_set dict_get].
  - reflexivity.
  - destruct (str_eqb key k') eqn:Hk; cbn [dict_get].
    + apply str_eqb_eq in Hk as <-. destruct (str_eqb k key); reflexivity.
    + rewrite IH. destruct (str_eqb k k') eqn:Hk'; [|reflexivity].
      apply str_eqb_eq in Hk' as ->.
      destruct (str_eqb k' key) eqn:Hk2; [|reflexivity].
      apply str_eqb_eq in Hk2. apply str_eqb_neq in Hk. congruence.
Qed.

Lemma dict_set_keys key v d :
  List.map fst (dict_set key v d)
  = if existsb (str_eqb key) (List.map fst d) then List.map fst d
    else List.map fst d ++ [key].
Proof.
  induction d as [|[k' v'] rest IH]; cbn [dict_set List.map fst existsb app].
  - reflexivity.
  - destruct (str_eqb key k') eqn:Hk; cbn [List.map fst orb]; [reflexivity|].
    rewrite IH. destruct (existsb _ _); reflexivity.
Qed.

Lemma dict_set_NoDup key v d :
  NoDup (List.map fst d) -> NoDup (List.map fst (dict_set key v d)).
Proof.
  intros Hnd. rewrite dict_set_keys.
  destruct (existsb (str_eqb key) (List.map fst d)) eqn:Hex; [exact Hnd|].
  apply NoDup_app. split; [exact Hnd|]. split; [|apply NoDup_singleton].
  intros x Hx Hx'. apply list_elem_of_singleton in Hx'. subst x.
  assert (Htrue : existsb (str_eqb key) (List.map fst d) = true).
  { apply existsb_exists. exists key. split; [now apply list_elem_of_In | apply str_eqb_refl]. }
  congruence.
Qed.

Lemma dict_set_elem key v d k' v' :
  (k', v') ∈ dict_set key v d -> (k' = key /\ v' = v) \/ (k', v') ∈ d.
Proof.
  induction d as [|[k0 v0] rest IH]; cbn [dict_set].
  - intros Hin. apply list_elem_of_singleton in Hin. injection Hin as -> ->. now left.
  - destruct (str_eqb key k0) eqn:Hk.
    + apply str_eqb_eq in Hk as <-. intros Hin.
      apply elem_of_cons in Hin as [Hin|Hin].
      * injection Hin as -> ->. now left.
      * right. now right.
    + intros Hin. apply elem_of_cons in Hin as [Hin|Hin].
      * right. rewrite Hin. left.
      * destruct (IH Hin) as [?|?]; [now left | right; now right].
Qed.

(** In a dictionary the bindings are those its keys are looked up to. *)
Lemma dict_get_elem d k v :
  NoDup (List.map fst d) -> (dict_get k d = Some v <-> (k, v) ∈ d).
Proof.
  induction d as [|[k0 v0] rest IH]; cbn [dict_get List.map fst]; intros Hnd.
  - split; [discriminate | intros Hin; inversion Hin].
  - apply NoDup_cons in Hnd as [Hk0 Hnd]. destruct (str_eqb k k0) eqn:Hk.
    + apply str_eqb_eq in Hk as ->. split.
      * intros [= ->]. left.
      * intros Hin. apply elem_of_cons in Hin as [Hin|Hin]; [now injection Hin as ->|].
        destruct Hk0. apply list_elem_of_In, in_map_iff. exists (k0, v).
        split; [reflexivity | now apply list_elem_of_In].
    + rewrite (IH Hnd). apply str_eqb_neq in Hk. split.
      * intros Hin. now right.
      * intros Hin. apply elem_of_cons in Hin as [Hin|Hin]; [|exact Hin].
        injection Hin as -> _. congruence.
Qed.

End DictFacts.

Lemma replace1_absent (old : char) (new s : str) :
  char_in old new = false -> char_in old (replace1 old new s) = false.
Proof.
  intros Hnew. unfold replace1. induction s as [|c s IH]; [reflexivity|].
  cbn [List.map List.concat]. rewrite char_in_app, IH, orb_false_r.
  destruct (char_eqb c old) eqn:Hc; [exact Hnew|].
  cbn. unfold char_eqb in *. rewrite N.eqb_sym, Hc. reflexivity.
Qed.

Section ImageIndexFacts.

Context {Path : Type} `{SourceTree Path} `{Listing Path}.
Variable src_dir : Path.

Lemma image_loop_invariant files acc all :
  (forall f, f ∈ files -> f ∈ all) ->
  NoDup (List.map fst acc) -> Forall (indexed src_dir all) acc ->
  NoDup (List.map fst (image_loop src_dir files acc))
  /\ Forall (indexed src_dir all) (image_loop src_dir files acc).
Proof.
  revert acc. induction files as [|f rest IH]; intros acc Hsub Hnd Hall; cbn [image_loop].
  - split; assumption.
  - assert (Hrest : forall g, g ∈ rest -> g ∈ all) by (intros g Hg; apply Hsub; now right).
    destruct (is_image_file f) eqn:Hf; [|now apply IH].
    apply IH; [exact Hrest | now apply dict_set_NoDup |].
    apply Forall_forall. intros [k v] Hin.
    apply dict_set_elem in Hin as [[-> ->]|Hin].
    + repeat split; [apply Hsub; left | exact Hf].
    + rewrite Forall_forall in Hall. now apply Hall.
Qed.

Lemma image_loop_get files acc k f :
  dict_get k (image_loop src_dir files acc) = Some f <->
  (last_with_key src_dir files f /\ k = stem_key src_dir f)
  \/ (dict_get k acc = Some f
      /\ forall g, g ∈ files -> is_image_file g = true -> stem_key src_dir g <> k).
Proof.
  revert acc. induction files as [|a rest IH]; intros acc; cbn [image_loop].
  - split.
    + intros Hget. right. split; [exact Hget|]. intros g Hg; inversion Hg.
    + intros [[(before & after & Hs & _) _]|[Hget _]]; [|exact Hget].
      destruct before; discriminate.
  - destruct (is_image_file a) eqn:Ha.
    + rewrite IH, dict_get_set. split.
      * intros [[(before & after & -> & Hf & Hlast) ->]|[Hget Hnone]].
        -- left. split; [|reflexivity]. exists (a :: before), after. repeat split; assumption.
        -- destruct (str_eqb k (stem_key src_dir a)) eqn:Hk.
           ++ injection Hget as <-. apply str_eqb_eq in Hk as ->. left.
              split; [|reflexivity]. exists [], rest. repeat split; [exact Ha|].
              intros g Hg Hgi. now apply Hnone.
           ++ right. split; [exact Hget|]. intros g Hg Hgi.
              apply elem_of_cons in Hg as [->|Hg]; [|now apply Hnone].
              apply str_eqb_neq in Hk. congruence.
      * intros [[(before & after & Hs & Hf & Hlast) ->]|[Hget Hnone]].
        -- destruct before as [|b before].
           ++ injection Hs as <- <-. right. rewrite str_eqb_refl. split; [reflexivity|].
              intros g Hg Hgi. now apply Hlast.
           ++ injection Hs as <- ->. left. split; [|reflexivity].
              exists before, after. repeat split; assumption.
        -- right. assert (Hk : str_eqb k (stem_key src_dir a) = false).
           { apply str_eqb_neq. intros ->. destruct (Hnone a); [left | exact Ha | reflexivity]. }
           rewrite Hk. split; [exact Hget|]. intros g Hg Hgi. apply Hnone; [now right | exact Hgi].
    + rewrite IH. split.
      * intros [[(before & after & -> & Hf & Hlast) ->]|[Hget Hnone]].
        -- left. split; [|reflexivity]. exists (a :: before), after. repeat split; assumption.
        -- right. split; [exact Hget|]. intros g Hg Hgi.
           apply elem_of_cons in Hg as [->|Hg]; [congruence | now apply Hnone].
      * intros [[(before & after & Hs & Hf & Hlast) ->]|[Hget Hnone]].
        -- destruct before as [|b before]; [injection Hs as <- _; congruence|].
           injection Hs as <- ->. left. split; [|reflexivity].
           exists before, after. repeat split; assumption.
        -- right. split; [exact Hget|]. intros g Hg Hgi. apply Hnone; [now right | exact Hgi].
Qed.

(** X8. The index built by [find_image_files] is a dictionary: no key
    occurs twice.  Every file in it comes from the listing of the source
    directory, is a regular file with one of the nine image extensions, and
    stands under its own stem key, which contains no backslash. *)
Theorem find_image_files_index :
  NoDup (List.map fst (find_image_files src_dir))
  /\ Forall (indexed src_dir (rglob src_dir (lit "*"))) (find_image_files src_dir)
  /\ Forall (fun binding => char_in BACKSLASH binding.1 = false
                            /\ In (suffix_lower binding.2) IMAGE_EXTENSIONS
                            /\ is_file binding.2 = true)
       (find_image_files src_dir).
Proof.
  destruct (image_loop_invariant (rglob src_dir (lit "*")) [] (rglob src_dir (lit "*")))
    as [Hnd Hall]; [trivial | constructor | constructor |].
  split; [exact Hnd|]. split; [exact Hall|].
  eapply Forall_impl; [exact Hall|]. intros [k f] (_ & Hf & Hk). cbn [fst snd] in *.
  split; [rewrite Hk; now apply replace1_absent|].
  unfold is_image_file in Hf. apply andb_true_iff in Hf as [Hext Hfile].
  split; [|exact Hfile].
  apply existsb_exists in Hext as (e & He & Heq). apply str_eqb_eq in Heq. now subst e.
Qed.

(** X9. When several image files have the same stem key, the index keeps
    the one listed last: a key is bound to a file exactly when the file is
    an image file of the listing with that key and no image file listed
    after it has the same key.  Such a file is what [resolve_image] returns
    for its key. *)
Theorem find_image_files_last_wins (k : str) (f : Path) :
  (dict_get k (find_image_files src_dir) = Some f <->
   last_with_key src_dir (rglob src_dir (lit "*")) f /\ k = stem_key src_dir f)
  /\ (last_with_key src_dir (rglob src_dir (lit "*")) f ->
      resolve_image (stem_key src_dir f) (find_image_files src_dir) = Some f).
Proof.
  assert (Hiff : dict_get k (find_image_files src_dir) = Some f <->
            last_with_key src_dir (rglob src_dir (lit "*")) f /\ k = stem_key src_dir f).
  { unfold find_image_files. rewrite image_loop_get. split.
    - intros [Hl|[Hget _]]; [exact Hl | discriminate].
    - intros Hl. now left. }
  split; [exact Hiff|].
  intros Hlast. unfold resolve_image, exact_match, find_image_files.
  assert (Hget : dict_get (stem_key src_dir f)
                   (image_loop src_dir (rglob src_dir (lit "*")) []) = Some f).
  { apply image_loop_get. left. split; [exact Hlast | reflexivity]. }
  now rewrite Hget.
Qed.

End ImageIndexFacts.

(** ** Further properties: the image resolver and the output directory *)

Section ResolverFacts.

Context {Path : Type}.
Implicit Types (images : list (str * Path)) (p : Path).

Lemma dict_get_In k images p : dict_get k images = Some p -> (k, p) ∈ images.
Proof.
  induction images as [|[k' v] rest IH]; cbn [dict_get]; [discriminate|].
  destruct (str_eqb k k') eqn:Hk.
  - apply str_eqb_eq in Hk as ->. intros [= ->]. left.
  - intros Hget. right. now apply IH.
Qed.

Lemma dict_get_None k images :
  dict_get k images = None <-> forall p, (k, p) ∉ images.
Proof.
  induction images as [|[k' v] rest IH]; cbn [dict_get].
  - split; [intros _ p Hin; inversion Hin | reflexivity].
  - destruct (str_eqb k k') eqn:Hk.
    + apply str_eqb_eq in Hk as ->. split; [discriminate|].
      intros Hall. destruct (Hall v). left.
    + apply str_eqb_neq in Hk. rewrite IH. split.
      * intros Hall p Hin. apply elem_of_cons in Hin as [Hin|Hin]; [congruence|].
        now apply (Hall p).
      * intros Hall p Hin. apply (Hall p). now right.
Qed.

Lemma extension_loop_some clean exts images p :
  extension_loop clean exts images = Some p ->
  exists ext, In ext exts /\ dict_get (key_no_ext clean ext) images = Some p.
Proof.
  induction exts as [|ext rest IH]; cbn [extension_loop]; [discriminate|].
  destruct (dict_get (key_no_ext clean ext) images) as [q|] eqn:Hget.
  - intros [= ->]. exists ext. split; [now left | exact Hget].
  - intros Hloop. destruct (IH Hloop) as (e & He & Hg). exists e. split; [now right | exact Hg].
Qed.

Lemma basename_loop_some target images p :
  basename_loop target images = Some p ->
  exists k, (k, p) ∈ images /\ basename k = target.
Proof.
  induction images as [|[k v] rest IH]; cbn [basename_loop]; [discriminate|].
  destruct (str_eqb (basename k) target) eqn:Hk.
  - apply str_eqb_eq in Hk. intros [= ->]. exists k. split; [left | exact Hk].
  - intros Hloop. destruct (IH Hloop) as (k' & Hin & Hb). exists k'. split; [now right | exact Hb].
Qed.

Lemma basename_loop_none target images :
  basename_loop target images = None <->
  forall k p, (k, p) ∈ images -> basename k <> target.
Proof.
  induction images as [|[k v] rest IH]; cbn [basename_loop].
  - split; [intros _ k p Hin; inversion Hin | reflexivity].
  - destruct (str_eqb (basename k) target) eqn:Hk.
    + apply str_eqb_eq in Hk. split; [discriminate|].
      intros Hall. destruct (Hall k v); [left | exact Hk].
    + apply str_eqb_neq in Hk. rewrite IH. split.
      * intros Hall k' p Hin. apply elem_of_cons in Hin as [Hin|Hin].
        -- injection Hin as -> ->. exact Hk.
        -- now apply (Hall k' p).
      * intros Hall k' p Hin. apply (Hall k' p). now right.
Qed.

(** X10. [resolve_image] only returns files of the index: the file it
    returns stands there under a key that is the reference, the
    qualifier-stripped reference, a key of stage 3, or a key whose last
    path segment is the last segment of the stripped reference without its
    extension. *)
Theorem resolve_image_returns_indexed_file (img_ref : str) images p :
  resolve_image img_ref images = Some p ->
  exists k, (k, p) ∈ images
    /\ (k = img_ref
        \/ k = clean_ref img_ref
        \/ (exists ext, In ext COMMON_EXTENSIONS /\ k = key_no_ext (clean_ref img_ref) ext)
        \/ basename k = base_no_ext (clean_ref img_ref)).
Proof.
  unfold resolve_image, exact_match, stripped_match, extension_match, basename_match.
  destruct (dict_get img_ref images) as [q|] eqn:H1.
  { intros [= ->]. exists img_ref. split; [now apply dict_get_In | now left]. }
  destruct (dict_get (clean_ref img_ref) images) as [q|] eqn:H2.
  { intros [= ->]. exists (clean_ref img_ref). split; [now apply dict_get_In | right; now left]. }
  destruct (extension_loop _ _ images) as [q|] eqn:H3.
  { intros [= ->]. apply extension_loop_some in H3 as (ext & Hext & Hget).
    exists (key_no_ext (clean_ref img_ref) ext). split; [now apply dict_get_In|].
    right; right; left. eauto. }
  intros H4. apply basename_loop_some in H4 as (k & Hin & Hb).
  exists k. split; [exact Hin | right; right; now right].
Qed.

(** X11. [resolve_image] returns [None] exactly when all four stages miss:
    neither the reference, nor the stripped reference, nor a key of stage 3
    is a key of the index, and no key has the wanted last segment.  So a
    reference is resolved whenever some key ends in its last segment
    without extension, wherever the file lies; nothing is resolved in an
    empty index. *)
Theorem resolve_image_none_iff (img_ref : str) images :
  (resolve_image img_ref images = None <->
     dict_get img_ref images = None
     /\ dict_get (clean_ref img_ref) images = None
     /\ (forall ext, In ext COMMON_EXTENSIONS ->
           dict_get (key_no_ext (clean_ref img_ref) ext) images = None)
     /\ (forall k p, (k, p) ∈ images -> basename k <> base_no_ext (clean_ref img_ref)))
  /\ (forall k p, (k, p) ∈ images -> basename k = base_no_ext (clean_ref img_ref) ->
        is_Some (resolve_image img_ref images))
  /\ resolve_image img_ref ([] : list (str * Path)) = None.
Proof.
  assert (Hiff : resolve_image img_ref images = None <->
     dict_get img_ref images = None
     /\ dict_get (clean_ref img_ref) images = None
     /\ (forall ext, In ext COMMON_EXTENSIONS ->
           dict_get (key_no_ext (clean_ref img_ref) ext) images = None)
     /\ (forall k p, (k, p) ∈ images -> basename k <> base_no_ext (clean_ref img_ref))).
  { unfold resolve_image, exact_match, stripped_match, extension_match, basename_match.
    rewrite <- extension_loop_none, <- basename_loop_none.
    destruct (dict_get img_ref images); [split; [discriminate | intros [? _]; discriminate]|].
    destruct (dict_get (clean_ref img_ref) images);
      [split; [discriminate | intros (_ & ? & _); discriminate]|].
    destruct (extension_loop _ _ images);
      [split; [discriminate | intros (_ & _ & ? & _); discriminate]|].
    tauto. }
  split; [exact Hiff|]. split.
  - intros k p Hin Hb. destruct Hiff as [Hto _].
    destruct (resolve_image img_ref images) as [q|]; [eauto|].
    destruct (Hto eq_refl) as (_ & _ & _ & Hno). destruct (Hno k p Hin Hb).
  - reflexivity.
Qed.

End ResolverFacts.

Lemma resolve_image_returns_indexed_file_witness :
  resolve_image (lit "figs/deep/plot.png") [(lit "a", 1%nat); (lit "img/plot", 2%nat)]
    = Some 2%nat
  /\ exists k, (k, 2%nat) ∈ [(lit "a", 1%nat); (lit "img/plot", 2%nat)].
Proof.
  assert (Hres : resolve_image (lit "figs/deep/plot.png")
                   [(lit "a", 1%nat); (lit "img/plot", 2%nat)] = Some 2%nat)
    by (vm_compute; reflexivity).
  split; [exact Hres|].
  destruct (resolve_image_returns_indexed_file _ _ _ Hres) as (k & Hin & _).
  exists k. exact Hin.
Defined.


Lemma replace1_delete_filter (old : char) (s : str) :
  replace1 old [] s = List.filter (fun c => negb (char_eqb c old)) s.
Proof.
  unfold replace1. induction s as [|c s IH]; [reflexivity|].
  cbn [List.map List.concat List.filter]. rewrite IH.
  destruct (char_eqb c old); reflexivity.
Qed.

(** X12. The directory name [clean_id] made from an arXiv id is the id
    with every ['.'] and ['/'] removed and all other characters kept in
    order: it contains neither character, is no longer than the id, and
    cleaning it again changes nothing. *)
Theorem clean_id_removes_dots_and_slashes (arxiv_id : str) :
  clean_id arxiv_id
    = List.filter (fun c => negb (char_eqb c DOT) && negb (char_eqb c SLASH)) arxiv_id
  /\ char_in DOT (clean_id arxiv_id) = false
  /\ char_in SLASH (clean_id arxiv_id) = false
  /\ (length (clean_id arxiv_id) <= length arxiv_id)%nat
  /\ clean_id (clean_id arxiv_id) = clean_id arxiv_id
  /\ clean_id (lit "2602.14486") = lit "260214486"
  /\ clean_id (lit "hep-th/9901001") = lit "hep-th9901001".
Proof.
  assert (Hfilter : forall s, clean_id s
            = List.filter (fun c => negb (char_eqb c DOT) && negb (char_eqb c SLASH)) s).
  { intros s. unfold clean_id. rewrite !replace1_delete_filter.
    induction s as [|c s IH]; [reflexivity|]. cbn [List.filter].
    destruct (char_eqb c DOT); cbn [negb andb List.filter]; [exact IH|].
    destruct (char_eqb c SLASH); cbn [negb]; [exact IH | now rewrite IH]. }
  assert (Hno : forall (d : char) s,
            (forall c, negb (char_eqb c DOT) && negb (char_eqb c SLASH) = true ->
                       char_eqb d c = false) ->
            char_in d (List.filter
              (fun c => negb (char_eqb c DOT) && negb (char_eqb c SLASH)) s) = false).
  { intros d s Hd. induction s as [|c s IH]; [reflexivity|]. cbn [List.filter].
    destruct (negb (char_eqb c DOT) && negb (char_eqb c SLASH)) eqn:Hc; [|exact IH].
    unfold char_in in IH |- *. cbn [existsb]. now rewrite (Hd c Hc), IH. }
  split; [apply Hfilter|]. rewrite Hfilter.
  split.
  { apply Hno. intros c Hc. apply andb_true_iff in Hc as [Hc _].
    apply negb_true_iff in Hc. unfold char_eqb in *. now rewrite N.eqb_sym. }
  split.
  { apply Hno. intros c Hc. apply andb_true_iff in Hc as [_ Hc].
    apply negb_true_iff in Hc. unfold char_eqb in *. now rewrite N.eqb_sym. }
  split; [apply filter_length_le|].
  split; [|split; vm_compute; reflexivity].
  rewrite Hfilter. induction arxiv_id as [|c s IH]; [reflexivity|].
  cbn [List.filter].
  destruct (negb (char_eqb c DOT) && negb (char_eqb c SLASH)) eqn:Hc; [|exact IH].
  cbn [List.filter]. rewrite Hc. now f_equal.
Qed.

(** ** Further properties: the records of the figure parser *)

Lemma well_spaced_word b w rest :
  w <> [] -> Forall not_space w -> well_spaced b (w ++ rest) = well_spaced true rest.
Proof.
  intros Hne Hw. revert b. induction Hw as [|c w Hc Hw IH]; intros b; [congruence|].
  cbn [app well_spaced]. rewrite Hc. destruct w as [|d w]; [reflexivity|].
  apply IH. discriminate.
Qed.

Lemma well_spaced_join ws :
  Forall (fun w => w <> [] /\ Forall not_space w) ws ->
  well_spaced false (join [SPACE] ws) = true.
Proof.
  induction 1 as [|w ws [Hne Hw] Hws IH]; [reflexivity|].
  destruct ws as [|w' ws].
  - cbn [join]. rewrite <- (app_nil_r w), well_spaced_word by assumption. reflexivity.
  - change (join [SPACE] (w :: w' :: ws)) with (w ++ [SPACE] ++ join [SPACE] (w' :: ws)).
    rewrite well_spaced_word by assumption.
    cbn [app well_spaced]. replace (is_space SPACE) with true by reflexivity.
    replace (char_eqb SPACE SPACE) with true by reflexivity. cbn [andb]. exact IH.
Qed.

Lemma well_spaced_take b n s :
  well_spaced b s = true -> well_spaced b (take n s) = true.
Proof.
  revert b n. induction s as [|c s IH]; intros b n Hs; [now destruct n|].
  destruct n as [|n]; [reflexivity|]. cbn [take well_spaced] in *.
  destruct (is_space c).
  - apply andb_true_iff in Hs as [Hb Hs]. rewrite Hb. cbn [andb]. now apply IH.
  - now apply IH.
Qed.

Lemma well_spaced_app_dots b s t :
  well_spaced b s = true -> Forall not_space t -> well_spaced b (s ++ t) = true.
Proof.
  intros Hs Ht. revert b Hs. induction s as [|c s IH]; intros b Hs.
  - cbn [app]. clear Hs. revert b. induction Ht as [|d t Hd Ht IHt]; intros b; [reflexivity|].
    cbn [well_spaced]. rewrite Hd. apply IHt.
  - cbn [app well_spaced] in *. destruct (is_space c).
    + apply andb_true_iff in Hs as [Hb Hs]. rewrite Hb. cbn [andb]. now apply IH.
    + now apply IH.
Qed.

Lemma split_from_words s cur :
  Forall not_space cur ->
  Forall (fun w => w <> [] /\ Forall not_space w) (split_from s cur).
Proof.
  revert cur. induction s as [|c s IH]; intros cur Hcur; cbn [split_from].
  - destruct cur as [|d cur]; [constructor|]. constructor; [|constructor].
    split.
    + intros Hrev. apply (f_equal (@length char)) in Hrev.
      rewrite length_rev in Hrev. discriminate.
    + now apply Forall_rev.
  - destruct (is_space c) eqn:Hc.
    + destruct cur as [|d cur]; [apply IH; constructor|].
      constructor; [|apply IH; constructor]. split.
      * intros Hrev. apply (f_equal (@length char)) in Hrev.
        rewrite length_rev in Hrev. discriminate.
      * now apply Forall_rev.
    + apply IH. constructor; assumption.
Qed.

Lemma split_from_chars s cur x :
  x ∈ concat (split_from s cur) -> x ∈ s \/ x ∈ cur.
Proof.
  revert cur. induction s as [|c s IH]; intros cur; cbn [split_from].
  - destruct cur as [|d cur]; cbn [concat].
    + intros Hx; inversion Hx.
    + rewrite app_nil_r, !list_elem_of_In, <- in_rev. now right.
  - destruct (is_space c).
    + destruct cur as [|d cur].
      * intros Hx. destruct (IH _ Hx) as [?|Hx']; [left; now right | inversion Hx'].
      * cbn [concat]. rewrite elem_of_app. intros [Hx|Hx].
        { right. apply list_elem_of_In. apply list_elem_of_In, in_rev in Hx. exact Hx. }
        destruct (IH _ Hx) as [?|Hx']; [left; now right | inversion Hx'].
    + intros Hx. destruct (IH _ Hx) as [?|Hx']; [left; now right|].
      apply elem_of_cons in Hx' as [->|?]; [left; left | now right].
Qed.

Lemma join_chars sep ws x :
  x ∈ join sep ws -> x ∈ sep \/ x ∈ concat ws.
Proof.
  induction ws as [|w ws IH]; [intros Hx; inversion Hx|].
  destruct ws as [|w' ws].
  - cbn [join concat]. rewrite app_nil_r. now right.
  - change (join sep (w :: w' :: ws)) with (w ++ sep ++ join sep (w' :: ws)).
    change (concat (w :: w' :: ws)) with (w ++ concat (w' :: ws)).
    rewrite !elem_of_app. intros [?|[?|Hx]]; [right; now left | now left |].
    destruct (IH Hx); [now left | right; now right].
Qed.

Lemma cleaned_caption_tidy body :
  well_spaced false (cleaned_caption body) = true
  /\ forall x, x ∈ cleaned_caption body -> is_brace x = false.
Proof.
  unfold cleaned_caption, split. split.
  - apply well_spaced_join, split_from_words. constructor.
  - intros x Hx. apply join_chars in Hx as [Hx|Hx].
    + apply list_elem_of_singleton in Hx. now subst x.
    + apply split_from_chars in Hx as [Hx|Hx]; [|inversion Hx].
      apply list_elem_of_In, filter_In in Hx as [_ Hx]. now apply negb_true_iff in Hx.
Qed.

Lemma truncate_caption_tidy c :
  well_spaced false c = true -> (forall x, x ∈ c -> is_brace x = false) ->
  tidy_caption (truncate_caption c).
Proof.
  intros Hws Hbr. unfold tidy_caption.
  destruct (Nat.le_gt_cases (length c) 120) as [Hle|Hgt].
  - rewrite truncate_caption_short by exact Hle. repeat split; assumption.
  - destruct (truncate_caption_long c Hgt) as (Heq & _ & Hlen).
    split; [lia|]. rewrite Heq. split.
    + apply well_spaced_app_dots; [now apply well_spaced_take|].
      repeat constructor.
    + intros x Hx. apply elem_of_app in Hx as [Hx|Hx].
      * apply Hbr. apply elem_of_take in Hx as (i & Hi & _).
        apply list_elem_of_lookup. eauto.
      * apply list_elem_of_In in Hx. cbn in Hx.
        destruct Hx as [<-|[<-|[<-|[]]]]; reflexivity.
Qed.

(** X13. Every caption the parser returns has at most 120 characters and
    contains no brace; its only whitespace characters are single plain
    spaces between two other characters or before the dots of the
    ellipsis, so it is a single line that does not start with a space. *)
Theorem parsed_captions_tidy (tex_content : str) :
  Forall (fun r => tidy_caption (caption r)) (parse_figures_from_tex tex_content).
Proof.
  unfold parse_figures_from_tex. generalize 0%nat.
  induction (finditer fig_pattern tex_content) as [|m ms IH]; intros n; cbn [figure_loop].
  - constructor.
  - constructor; [|apply IH]. cbn [figure_of_match caption].
    destruct (cleaned_caption_tidy (m_group m)). now apply truncate_caption_tidy.
Qed.

(** *** What the patterns capture *)

Lemma span_spec (p : char -> bool) s a b :
  span p s = (a, b) -> s = a ++ b /\ forallb p a = true.
Proof.
  revert a b. induction s as [|c s IH]; intros a b; cbn [span].
  - intros [= <- <-]. split; reflexivity.
  - destruct (p c) eqn:Hc.
    + destruct (span p s) as [a' b'] eqn:Hs. intros [= <- <-].
      destruct (IH _ _ eq_refl) as [-> Ha]. split; [reflexivity|].
      cbn [forallb]. now rewrite Hc, Ha.
    + intros [= <- <-]. split; reflexivity.
Qed.

Lemma brace_arg_plus_ref s g n : brace_arg_plus s = Some (g, n) -> braced_ref g.
Proof.
  unfold brace_arg_plus. destruct s as [|c r]; [discriminate|].
  destruct (char_eqb c LBRACE); [|discriminate].
  destruct (span not_rbrace r) as [a b] eqn:Hspan.
  destruct b as [|d b]; [discriminate|].
  destruct (char_eqb d RBRACE && negb (Nat.eqb (length a) 0)) eqn:Hok; [|discriminate].
  intros [= <- _]. apply andb_true_iff in Hok as [_ Hlen].
  apply negb_true_iff, Nat.eqb_neq in Hlen.
  apply span_spec in Hspan as [_ Hall]. split.
  - intros ->. now apply Hlen.
  - clear Hlen. induction a as [|x a IH]; [reflexivity|].
    cbn [forallb] in Hall. apply andb_true_iff in Hall as [Hx Hall].
    unfold char_in in *. cbn [existsb]. rewrite (IH Hall), orb_false_r.
    unfold not_rbrace in Hx. apply negb_true_iff in Hx.
    unfold char_eqb in *. now rewrite N.eqb_sym.
Qed.

Section Captured.

(** A property of the group of every match of a continuation. *)
Variable P : str -> Prop.

Lemma lazy_bracket_captures dotall k : captures P k -> captures P (lazy_bracket dotall k).
Proof.
  intros Hk s. induction s as [|c t IH]; intros g n; cbn [lazy_bracket]; [discriminate|].
  destruct (char_eqb c RBRACKET).
  - destruct (k t) as [[g' n']|] eqn:Hkt.
    + intros [= <- _]. eapply Hk, Hkt.
    + destruct (dotall || negb (char_eqb c NEWLINE)); [|discriminate].
      destruct (lazy_bracket dotall k t) as [[g' n']|]; [|discriminate].
      intros [= <- _]. eapply IH. reflexivity.
  - destruct (dotall || negb (char_eqb c NEWLINE)); [|discriminate].
    destruct (lazy_bracket dotall k t) as [[g' n']|]; [|discriminate].
    intros [= <- _]. eapply IH. reflexivity.
Qed.

Lemma opt_bracket_captures dotall k : captures P k -> captures P (opt_bracket dotall k).
Proof.
  intros Hk s g n. unfold opt_bracket. destruct s as [|c t]; [apply Hk|].
  destruct (char_eqb c LBRACKET); [|apply Hk].
  destruct (lazy_bracket dotall k t) as [[g' n']|] eqn:Hl; [|apply Hk].
  intros [= <- _]. eapply lazy_bracket_captures; eauto.
Qed.

Lemma keyword_captures kw k : captures P k -> captures P (keyword kw k).
Proof.
  intros Hk s g n. unfold keyword. destruct (strip_prefix kw s) as [r|]; [|discriminate].
  destruct (k r) as [[g' n']|] eqn:Hkr; [|discriminate].
  intros [= <- _]. eapply Hk, Hkr.
Qed.

Lemma finditer_from_captures m s pos skip :
  captures P m -> Forall (fun x => P (m_group x)) (finditer_from m s pos skip).
Proof.
  intros Hm. revert pos skip. induction s as [|c t IH]; intros pos skip;
    cbn [finditer_from]; [constructor|].
  destruct skip as [|k]; [|apply IH].
  destruct (m (c :: t)) as [[g len]|] eqn:Hmatch; [|apply IH].
  constructor; [|apply IH]. cbn. eapply Hm, Hmatch.
Qed.

End Captured.

(** X14. Every image reference of every record the parser returns, and
    every file reference the assembler takes from an [\input] or [\include]
    directive, is non-empty and contains no ['}']. *)
Theorem captured_references_braced (tex_content : str) :
  Forall (fun r => Forall braced_ref (image_paths r)) (parse_figures_from_tex tex_content)
  /\ Forall (fun m => braced_ref (m_group m)) (finditer input_pattern tex_content).
Proof.
  assert (Hplus : captures braced_ref brace_arg_plus)
    by (intros s g n; apply brace_arg_plus_ref).
  split.
  - unfold parse_figures_from_tex. generalize 0%nat.
    induction (finditer fig_pattern tex_content) as [|m ms IH]; intros n; cbn [figure_loop].
    + constructor.
    + constructor; [|apply IH]. cbn [figure_of_match image_paths].
      unfold findall. apply Forall_map. apply finditer_from_captures.
      unfold img_pattern. now apply keyword_captures, opt_bracket_captures.
  - apply finditer_from_captures. intros s g n. unfold input_pattern.
    destruct (keyword (lit "\input") brace_arg_plus s) as [[g' n']|] eqn:H1.
    + intros [= <- _]. eapply keyword_captures; eauto.
    + apply keyword_captures, Hplus.
Qed.

(** ** Further properties: what the extraction loop saves *)

Section SavedFacts.

Context {Path : Type} `{SourceTree Path} `{Rasterizer Path}.
Implicit Types (out_dir : Path) (images : list (str * Path)) (fig : FigureRecord).

Lemma resolve_image_indexed (img_ref : str) images (p : Path) :
  resolve_image img_ref images = Some p -> exists k, (k, p) ∈ images.
Proof.
  unfold resolve_image, exact_match, stripped_match, extension_match, basename_match.
  destruct (dict_get img_ref images) as [q|] eqn:H1.
  { intros [= ->]. eauto using dict_get_In. }
  destruct (dict_get (clean_ref img_ref) images) as [q|] eqn:H2.
  { intros [= ->]. eauto using dict_get_In. }
  destruct (extension_loop _ _ images) as [q|] eqn:H3.
  { intros [= ->]. apply extension_loop_some in H3 as (ext & _ & Hget).
    eauto using dict_get_In. }
  intros H4. apply basename_loop_some in H4 as (k & Hin & _). eauto.
Qed.

Lemma passed_over_dec images (img_ref : str) :
  passed_over images img_ref \/ ~ passed_over images img_ref.
Proof.
  unfold passed_over. destruct (resolve_image img_ref images) as [p|]; [|now left].
  destruct (decide (suffix_lower p = lit ".eps")); [now left | now right].
Qed.

Lemma convert_pdf_to_png_true (pdf png : Path) :
  convert_pdf_to_png pdf png 150 = true <-> conversion_succeeds pdf png.
Proof.
  unfold convert_pdf_to_png, conversion_succeeds.
  destruct (run_pdftoppm pdf png 150); split; try discriminate; try tauto;
    intros [? ?]; discriminate.
Qed.

Lemma save_first_saved_from out_dir images fig refs sf w :
  save_first out_dir images fig refs = Some (sf, w) ->
  saved_from out_dir images fig refs sf w.
Proof.
  assert (Hmono : forall r rest, saved_from out_dir images fig rest sf w ->
            saved_from out_dir images fig (r :: rest) sf w).
  { intros r rest (? & ? & ? & (x & Hx & Hres) & ?). repeat split; try tauto.
    exists x. split; [now right | exact Hres]. }
  induction refs as [|r refs IH]; cbn [save_first]; [discriminate|].
  destruct (resolve_image r images) as [p|] eqn:Hres; [|intros; now apply Hmono, IH].
  destruct (str_eqb (suffix_lower p) (lit ".eps")) eqn:Heps; [intros; now apply Hmono, IH|].
  apply str_eqb_neq in Heps.
  pose proof (resolve_image_indexed _ _ _ Hres) as Hin.
  assert (Href : exists img_ref, img_ref ∈ r :: refs /\ resolve_image img_ref images = Some p).
  { exists r. split; [left | exact Hres]. }
  assert (Hgoal : forall name w',
            written_src w' = p ->
            written_as out_dir (number fig) name w' ->
            saved_from out_dir images fig (r :: refs)
              {| sf_number := number fig; sf_caption := caption fig;
                 sf_filename := name;
                 sf_saved_path := path_str (joinpath out_dir name) |} w').
  { intros name w' Hsrc Has. unfold saved_from. rewrite Hsrc. cbn.
    split; [reflexivity|]. split; [reflexivity|]. split; [reflexivity|].
    split; [exact Href|]. split; [exact Hin|]. split; [exact Heps | exact Has]. }
  destruct (str_eqb (suffix_lower p) (lit ".pdf")) eqn:Hpdf.
  - apply str_eqb_eq in Hpdf.
    destruct (convert_pdf_to_png _ _ _) eqn:Hconv; intros [= <- <-];
      apply Hgoal; try reflexivity; unfold written_as, figure_name; cbn.
    + left. split; [exact Hpdf|]. split; [reflexivity|]. split; [reflexivity|].
      now apply convert_pdf_to_png_true.
    + right; left. split; [exact Hpdf|]. split; [reflexivity|]. split; [reflexivity|].
      intros Hok. apply convert_pdf_to_png_true in Hok.
      unfold figure_name in Hok. congruence.
  - apply str_eqb_neq in Hpdf. intros [= <- <-].
    apply Hgoal; [reflexivity|]. unfold written_as, figure_name; cbn.
    right; right. split; [exact Hpdf|]. split; reflexivity.
Qed.

(** X15. The references of a figure are tried in order and the first one
    that resolves to a file other than EPS is saved: nothing is saved
    exactly when every reference is unresolved or resolves to an EPS file;
    references passed over before the saved one do not change the result,
    and the references after it are not looked at. *)
Theorem save_first_first_usable out_dir images fig (refs : list str) :
  (save_first out_dir images fig refs = None <-> Forall (passed_over images) refs)
  /\ (forall before img_ref after,
        refs = before ++ img_ref :: after ->
        Forall (passed_over images) before ->
        ~ passed_over images img_ref ->
        save_first out_dir images fig refs = save_first out_dir images fig [img_ref]
        /\ is_Some (save_first out_dir images fig refs)).
Proof.
  assert (Hskip : forall r rest, passed_over images r ->
            save_first out_dir images fig (r :: rest) = save_first out_dir images fig rest).
  { intros r rest Hr. unfold passed_over in Hr. cbn [save_first].
    destruct (resolve_image r images) as [p|]; [|reflexivity].
    now rewrite Hr, str_eqb_refl. }
  assert (Huse : forall r rest, ~ passed_over images r ->
            save_first out_dir images fig (r :: rest) = save_first out_dir images fig [r]
            /\ is_Some (save_first out_dir images fig (r :: rest))).
  { intros r rest Hr. unfold passed_over in Hr. cbn [save_first].
    destruct (resolve_image r images) as [p|]; [|destruct Hr; exact I].
    destruct (str_eqb (suffix_lower p) (lit ".eps")) eqn:Heps.
    { apply str_eqb_eq in Heps. contradiction. }
    split; [reflexivity|].
    destruct (str_eqb (suffix_lower p) (lit ".pdf"));
      [destruct (convert_pdf_to_png _ _ _)|]; eauto. }
  split.
  - induction refs as [|r refs IH].
    + split; [constructor | reflexivity].
    + destruct (passed_over_dec images r) as [Hr|Hr].
      * rewrite (Hskip _ _ Hr), IH. split.
        -- intros Hall. now constructor.
        -- intros Hall. now apply Forall_inv_tail in Hall.
      * destruct (Huse r refs Hr) as [_ [x Hx]]. rewrite Hx. split; [discriminate|].
        intros Hall. apply Forall_inv in Hall. contradiction.
  - intros before img_ref after -> Hbefore Hr.
    induction Hbefore as [|b before Hb _ IH]; cbn [app].
    + now apply Huse.
    + now rewrite (Hskip _ _ Hb).
Qed.

(** The saving loop keeps what was saved and written, and appends the
    records and the files of the following figures until the cap is
    reached. *)
Lemma save_loop_pairs out_dir images figures saved written :
  (length saved <= MAX_FIGURES)%nat ->
  save_loop out_dir images figures saved written
  = let new := take (MAX_FIGURES - length saved)
                 (omap (fun fig => save_first out_dir images fig (image_paths fig)) figures) in
    (saved ++ List.map fst new, written ++ List.map snd new).
Proof.
  cbn zeta. revert saved written.
  induction figures as [|fig rest IH]; intros saved written Hlen.
  - cbn. now rewrite take_nil, !app_nil_r.
  - cbn [save_loop omap list_omap].
    destruct (Nat.leb_spec MAX_FIGURES (length saved)) as [Hfull|Hroom].
    + replace (MAX_FIGURES - length saved)%nat with 0%nat by lia.
      cbn. now rewrite !app_nil_r.
    + destruct (save_first out_dir images fig (image_paths fig)) as [[sf w]|].
      * rewrite IH by (rewrite length_app; cbn; lia).
        rewrite length_app. cbn [length].
        replace (MAX_FIGURES - length saved)%nat
          with (S (MAX_FIGURES - (length saved + 1)))%nat by lia.
        cbn [take List.map fst snd]. now rewrite <- !app_assoc.
      * now apply IH.
Qed.

Lemma elem_of_take_omap {A B} (f : A -> option B) (l : list A) n b :
  b ∈ take n (omap f l) -> exists a, a ∈ l /\ f a = Some b.
Proof.
  intros Hin. apply elem_of_take in Hin as (i & Hi & _).
  apply list_elem_of_lookup_2 in Hi. now apply list_elem_of_omap in Hi.
Qed.

(** X16. The records returned and the files written correspond one to
    one.  The i-th record belongs to a parsed figure whose number and
    caption it carries; its path is the output directory joined with its
    file name; the file written for it comes from the image index through
    one of the figure's references, is not an EPS file, and is either a
    PDF converted to [figure<N>.png] (only when [pdftoppm] completed and
    the PNG exists), a PDF copied to [figure<N>.pdf] (only when that
    conversion did not succeed), or another file copied to
    [figure<N><ext>]. *)
Theorem extract_figures_records_match_files out_dir images (tex_content : str) :
  let figures := parse_figures_from_tex tex_content in
  let saved := fst (extract_figures out_dir images tex_content) in
  let written := snd (extract_figures out_dir images tex_content) in
  length written = length saved
  /\ forall i sf, saved !! i = Some sf ->
       exists w fig, written !! i = Some w /\ fig ∈ figures
         /\ saved_for out_dir images fig sf w.
Proof.
  cbn zeta. unfold extract_figures.
  rewrite save_loop_pairs by (cbn; unfold MAX_FIGURES; lia).
  cbn zeta. cbn [fst snd app length].
  set (new := take _ _).
  split; [now rewrite !length_map|].
  intros i sf Hsf.
  change (List.map fst new) with (fst <$> new) in Hsf.
  apply list_lookup_fmap_Some in Hsf as ([sf' w] & -> & Hi).
  pose proof (list_elem_of_lookup_2 _ _ _ Hi) as Hin.
  apply elem_of_take_omap in Hin as (fig & Hfig & Hsave).
  exists w, fig. split.
  - change (List.map snd new) with (snd <$> new). now rewrite list_lookup_fmap, Hi.
  - split; [exact Hfig|]. now apply save_first_saved_from.
Qed.

End SavedFacts.

(** ** Further properties: the names of the saved files *)

Lemma lit_inj (a b : string) : lit a = lit b -> a = b.
Proof.
  unfold lit. intros Heq.
  rewrite <- (string_of_list_ascii_of_string a), <- (string_of_list_ascii_of_string b).
  f_equal. revert Heq. generalize (list_ascii_of_string b).
  induction (list_ascii_of_string a) as [|x l IH]; intros [|y l']; cbn;
    try discriminate; [reflexivity|].
  intros [= Hxy Hl]. f_equal; [|now apply IH].
  rewrite <- (ascii_N_embedding x), <- (ascii_N_embedding y). now rewrite Hxy.
Qed.

Lemma string_of_uint_inj (d d' : Decimal.uint) :
  NilEmpty.string_of_uint d = NilEmpty.string_of_uint d' -> d = d'.
Proof.
  intros Heq. pose proof (NilEmpty.usu d) as Hd. rewrite Heq, NilEmpty.usu in Hd.
  now injection Hd.
Qed.

Lemma str_of_nat_inj (n n' : nat) : str_of_nat n = str_of_nat n' -> n = n'.
Proof.
  unfold str_of_nat. intros Heq.
  now apply Unsigned.to_uint_inj, string_of_uint_inj, lit_inj.
Qed.

Lemma string_of_uint_digits (d : Decimal.uint) :
  Forall (fun c => is_digit c = true) (lit (NilEmpty.string_of_uint d)).
Proof.
  unfold lit. induction d; cbn [NilEmpty.string_of_uint list_ascii_of_string List.map];
    constructor; try assumption; reflexivity.
Qed.

Lemma digits_app_inj (d1 d2 e1 e2 : str) :
  Forall (fun c => is_digit c = true) d1 ->
  Forall (fun c => is_digit c = true) d2 ->
  dotted e1 = true -> dotted e2 = true ->
  d1 ++ e1 = d2 ++ e2 -> d1 = d2.
Proof.
  assert (Hdot : forall c, char_eqb c DOT = true -> is_digit c = true -> False).
  { intros c Hc Hd. apply N.eqb_eq in Hc. subst c. discriminate Hd. }
  intros H1. revert d2. induction H1 as [|c d1 Hc _ IH]; intros d2 H2 He1 He2 Heq.
  - destruct H2 as [|c' d2 Hc' _]; [reflexivity|]. cbn in Heq. subst e1.
    cbn in He1. destruct (Hdot _ He1 Hc').
  - destruct H2 as [|c' d2 Hc' H2]; cbn in Heq.
    + subst e2. cbn in He2. destruct (Hdot _ He2 Hc).
    + injection Heq as -> Heq. f_equal. now apply IH.
Qed.

Lemma figure_name_inj (n n' : nat) (e e' : str) :
  dotted e = true -> dotted e' = true ->
  figure_name n e = figure_name n' e' -> n = n'.
Proof.
  unfold figure_name. intros He He' Heq. apply app_inv_head in Heq.
  apply str_of_nat_inj. eapply digits_app_inj; [| | exact He | exact He' | exact Heq];
    apply string_of_uint_digits.
Qed.

Lemma saved_extension_dotted (ext : str) : In ext SAVED_EXTENSIONS -> dotted ext = true.
Proof.
  unfold SAVED_EXTENSIONS. cbn [In].
  intros Hin. repeat (destruct Hin as [<-|Hin]; [reflexivity|]). destruct Hin.
Qed.

Lemma saved_extension (ext : str) :
  In ext IMAGE_EXTENSIONS -> ext <> lit ".eps" -> In ext SAVED_EXTENSIONS.
Proof.
  unfold IMAGE_EXTENSIONS, SAVED_EXTENSIONS. cbn [In]. intros Hin Heps.
  repeat (destruct Hin as [<-|Hin]; [tauto || congruence|]). destruct Hin.
Qed.

Lemma StronglySorted_sublist {A} (R : A -> A -> Prop) (l1 l2 : list A) :
  sublist l1 l2 -> StronglySorted R l2 -> StronglySorted R l1.
Proof.
  induction 1 as [|x l1 l2 Hsub IH|x l1 l2 Hsub IH]; intros Hs.
  - constructor.
  - apply StronglySorted_inv in Hs as [Hs Hall]. constructor; [now apply IH|].
    rewrite Forall_forall in *. intros y Hy. apply Hall.
    eapply elem_of_sublist; eassumption.
  - apply StronglySorted_inv in Hs as [Hs _]. now apply IH.
Qed.

Lemma StronglySorted_seq (a n : nat) : StronglySorted lt (seq a n).
Proof.
  revert a. induction n as [|n IH]; intros a; cbn [seq]; constructor; [apply IH|].
  apply Forall_forall. intros x Hx. apply list_elem_of_In, in_seq in Hx. lia.
Qed.

Lemma StronglySorted_lt_NoDup (l : list nat) : StronglySorted lt l -> NoDup l.
Proof.
  induction 1 as [|a l _ IH Hall]; constructor; [|exact IH].
  intros Hin. rewrite Forall_forall in Hall. specialize (Hall a Hin). lia.
Qed.

Lemma NoDup_map_through {A B C} (f : A -> B) (g : A -> C) (l : list A) :
  (forall x y, x ∈ l -> y ∈ l -> f x = f y -> g x = g y) ->
  NoDup (List.map g l) -> NoDup (List.map f l).
Proof.
  induction l as [|a l IH]; intros Hfg Hnd; cbn [List.map]; [constructor|].
  cbn [List.map] in Hnd. apply NoDup_cons in Hnd as [Hna Hnd].
  constructor.
  - intros Hin. apply Hna.
    change (List.map f l) with (f <$> l) in Hin.
    apply list_elem_of_fmap in Hin as (y & Hfy & Hy).
    change (List.map g l) with (g <$> l). apply list_elem_of_fmap.
    exists y. split; [|exact Hy]. apply Hfg; [left | now right | exact Hfy].
  - apply IH; [|exact Hnd]. intros x y Hx Hy. apply Hfg; now right.
Qed.

Section SavedNames.

Context {Path : Type} `{SourceTree Path} `{Rasterizer Path} `{Listing Path}.
Implicit Types (src_dir out_dir : Path) (fig : FigureRecord).

Lemma saved_numbers_sublist out_dir (images : list (str * Path)) (figures : list FigureRecord) :
  sublist
    (sf_number <$> (fst <$> omap (fun fig => save_first out_dir images fig (image_paths fig)) figures))
    (number <$> figures).
Proof.
  induction figures as [|fig rest IH]; cbn [omap list_omap fmap list_fmap]; [constructor|].
  destruct (save_first out_dir images fig (image_paths fig)) as [[sf w]|] eqn:Hsave.
  - cbn. rewrite (save_first_number _ _ _ _ _ _ Hsave). now constructor.
  - now constructor.
Qed.

(** X17. With the index that [find_image_files] builds, every saved file
    is named [figure<N><ext>], where N is the number of its record and
    [ext] one of the eight image extensions other than [.eps].  The
    numbers of the saved records increase strictly and lie between 1 and
    the number of figures parsed, so no two saved files have the same name:
    no figure overwrites the file of another. *)
Theorem saved_names_distinct src_dir out_dir (tex_content : str) :
  let images := find_image_files src_dir in
  let saved := fst (extract_figures out_dir images tex_content) in
  Forall (named_with SAVED_EXTENSIONS) saved
  /\ StronglySorted lt (List.map sf_number saved)
  /\ Forall (fun sf => (1 <= sf_number sf <= length (parse_figures_from_tex tex_content))%nat)
       saved
  /\ NoDup (List.map sf_filename saved).
Proof.
  cbn zeta. unfold extract_figures.
  rewrite save_loop_pairs by (cbn; unfold MAX_FIGURES; lia).
  cbn zeta. cbn [fst app length].
  set (images := find_image_files src_dir).
  set (figures := parse_figures_from_tex tex_content).
  set (new := take _ _).
  assert (Hnamed : Forall (named_with SAVED_EXTENSIONS) (List.map fst new)).
  { apply Forall_forall. intros sf Hsf.
    change (List.map fst new) with (fst <$> new) in Hsf.
    apply list_elem_of_fmap in Hsf as ([sf' w] & -> & Hin). cbn [fst].
    apply elem_of_take_omap in Hin as (fig & _ & Hsave).
    apply save_first_saved_from in Hsave
      as (Hnum & _ & _ & _ & (k & Hk) & Heps & Has).
    assert (Hext : In (suffix_lower (written_src w)) IMAGE_EXTENSIONS).
    { destruct (image_loop_invariant src_dir (rglob src_dir (lit "*")) []
                  (rglob src_dir (lit "*"))) as [_ Hall];
        [trivial | constructor | constructor |].
      rewrite Forall_forall in Hall. destruct (Hall _ Hk) as (_ & Hf & _).
      cbn [snd] in Hf. unfold is_image_file in Hf.
      apply andb_true_iff in Hf as [Hf _].
      apply existsb_exists in Hf as (e & He & Heq).
      apply str_eqb_eq in Heq. now rewrite Heq. }
    unfold named_with. rewrite Hnum.
    destruct Has as [(_ & Hname & _)|[(_ & Hname & _)|(_ & Hname & _)]].
    - exists (lit ".png"). split; [|exact Hname]. unfold SAVED_EXTENSIONS. cbn [In]. tauto.
    - exists (lit ".pdf"). split; [|exact Hname]. unfold SAVED_EXTENSIONS. cbn [In]. tauto.
    - exists (suffix_lower (written_src w)). split; [|exact Hname].
      now apply saved_extension. }
  assert (Hsub : sublist (List.map sf_number (List.map fst new)) (List.map number figures)).
  { change (sublist (sf_number <$> (fst <$> new)) (number <$> figures)).
    etransitivity; [|apply saved_numbers_sublist].
    apply fmap_sublist, fmap_sublist. apply sublist_take. }
  assert (Hnums : List.map number figures = seq 1 (length figures)).
  { unfold figures, parse_figures_from_tex.
    rewrite figure_loop_numbers. f_equal.
    now rewrite <- (length_map number (figure_loop _ 0)), figure_loop_numbers, length_seq. }
  assert (Hsorted : StronglySorted lt (List.map sf_number (List.map fst new))).
  { eapply StronglySorted_sublist; [exact Hsub|]. rewrite Hnums. apply StronglySorted_seq. }
  split; [exact Hnamed|]. split; [exact Hsorted|]. split.
  - apply Forall_forall. intros sf Hsf.
    assert (Hin : sf_number sf ∈ List.map number figures).
    { eapply elem_of_sublist; [|exact Hsub].
      change (sf_number sf ∈ sf_number <$> List.map fst new).
      apply list_elem_of_fmap. eauto. }
    rewrite Hnums in Hin. apply list_elem_of_In, in_seq in Hin. lia.
  - apply (NoDup_map_through sf_filename sf_number);
      [|now apply StronglySorted_lt_NoDup].
    rewrite Forall_forall in Hnamed.
    intros x y Hx Hy Heq.
    destruct (Hnamed x Hx) as (ex & Hex & Hnx), (Hnamed y Hy) as (ey & Hey & Hny).
    rewrite Hnx, Hny in Heq.
    eapply figure_name_inj; [| | exact Heq]; now apply saved_extension_dotted.
Qed.

End SavedNames.
